(** * The ticket tree of [src/server.js]

    A shallow embedding of the GraphQL resolvers of [server.js] (the
    queries [tickets] and [ticket], and the eight mutations) over an
    explicit ticket store, and the properties of the parent/child tree
    they maintain.

    Every resolver is an [async] function: it is embedded as a function
    from the store to the state in which its promise ends (pending,
    fulfilled with a value, rejected with a reason) and the store it
    leaves once all its callbacks have run.  The store serves the
    requests of one resolver in the order in which they are issued, and
    one resolver runs at a time. *)

From stdpp Require Import gmap strings list fin_maps.

Abbreviation ID := N.

(** ** The store behind [models.Ticket] *)

Module TicketStore.

(** Modelled from the spec: the module [./db] that [server.js] imports
    ([models.Ticket]) is not among the sources.  A stored record has the
    fields of the spec's data model: a title, a completion flag and a
    nullable reference to the parent; its [id] is the key under which
    it is stored. *)
Record Row := mkRow {
  row_title : string;
  row_isCompleted : bool;
  row_parentId : option ID
}.

(** Modelled from the spec: a ticket as the resolvers hold it, the
    stored fields together with the immutable [id]. *)
Record Ticket := mkTicket {
  id : ID;
  title : string;
  isCompleted : bool;
  parentId : option ID
}.

(** Modelled from the spec: the keyed storage of [./db], with the
    counter from which [create] draws the next identifier. *)
Record Store := mkStore {
  rows : gmap N Row;
  nextId : ID
}.

(** Modelled from the spec: the ticket read from the record stored
    under [k]. *)
Definition instance (k : ID) (r : Row) : Ticket :=
  {| id := k; title := row_title r; isCompleted := row_isCompleted r;
     parentId := row_parentId r |}.

(** Modelled from the spec: the store before any ticket is created. *)
Definition empty : Store := {| rows := ∅; nextId := 1%N |}.

(** Modelled from the spec: point lookup, [models.Ticket.findByPk(id)];
    [None] is the [null] it gives for an absent id. *)
Definition findByPk (k : ID) (st : Store) : option Ticket :=
  instance k <$> rows st !! k.

(** Modelled from the spec: predicate scan on the parent reference,
    [models.Ticket.findAll({ where: { parentId } })], and the
    association getter [ticket.getChildren()]. *)
Definition findAll_parentId (p : option ID) (st : Store) : list Ticket :=
  filter (λ t, parentId t = p) ((λ kr, instance kr.1 kr.2) <$> map_to_list (rows st)).

(** Modelled from the spec: the children of a ticket are derived, not
    stored: the tickets whose parent reference is its id. *)
Definition getChildren (t : Ticket) (st : Store) : list Ticket :=
  findAll_parentId (Some (id t)) st.

(** Modelled from the spec: [models.Ticket.create({ title, isCompleted })];
    the parent starts null and an unspecified [isCompleted] is false. *)
Definition create (title : string) (isCompleted : option bool) (st : Store)
  : Ticket * Store :=
  let r := {| row_title := title; row_isCompleted := default false isCompleted;
              row_parentId := None |} in
  (instance (nextId st) r,
   {| rows := <[nextId st := r]> (rows st); nextId := N.succ (nextId st) |}).

(** Modelled from the spec: the object literal handed to
    [ticket.update]; the resolvers give exactly one field each time. *)
Inductive Values :=
| Title (title : string)            (* { title } *)
| IsCompleted (isCompleted : bool)  (* { isCompleted } *)
| ParentId (parentId : option ID).  (* { parentId }, { parentId: null } *)

(** Modelled from the spec: a stored record with one field set. *)
Definition set_row (v : Values) (r : Row) : Row :=
  match v with
  | Title s => {| row_title := s; row_isCompleted := row_isCompleted r;
                  row_parentId := row_parentId r |}
  | IsCompleted b => {| row_title := row_title r; row_isCompleted := b;
                        row_parentId := row_parentId r |}
  | ParentId p => {| row_title := row_title r; row_isCompleted := row_isCompleted r;
                     row_parentId := p |}
  end.

(** Modelled from the spec: a ticket with one field set. *)
Definition set_ticket (v : Values) (t : Ticket) : Ticket :=
  match v with
  | Title s => {| id := id t; title := s; isCompleted := isCompleted t;
                  parentId := parentId t |}
  | IsCompleted b => {| id := id t; title := title t; isCompleted := b;
                        parentId := parentId t |}
  | ParentId p => {| id := id t; title := title t; isCompleted := isCompleted t;
                     parentId := p |}
  end.

(** Modelled from the spec: field-level update, [ticket.update(values)].
    The given field is written to the record stored under the ticket's
    id, and the ticket with that field set is the result.  The store is
    a generic record store: it checks neither the title nor the parent
    reference. *)
Definition update (t : Ticket) (v : Values) (st : Store) : Ticket * Store :=
  (set_ticket v t,
   {| rows := alter (set_row v) (id t) (rows st); nextId := nextId st |}).

(** Modelled from the spec: orphaning, the parent reference set to
    null in a record that referred to [k]. *)
Definition orphan (k : ID) (r : Row) : Row :=
  if decide (row_parentId r = Some k)
  then {| row_title := row_title r; row_isCompleted := row_isCompleted r;
          row_parentId := None |}
  else r.

(** Modelled from the spec: delete, [ticket.destroy()], with the spec's
    cascade policy: the record is deleted and the records that referred
    to it as their parent have the reference set to null. *)
Definition destroy (t : Ticket) (st : Store) : Store :=
  {| rows := orphan (id t) <$> delete (id t) (rows st); nextId := nextId st |}.

End TicketStore.

Export TicketStore.

(** ** Promises and resolver results *)

(** What a resolver hands back to GraphQL. *)
Inductive Value :=
| VTicket (t : Ticket)
| VArray (ts : list Ticket)
| VBool (b : bool)
| VNull.

(** The errors raised in [server.js]. *)
Inductive Failure :=
| TicketNotFound                            (* new Error('Ticket not found') *)
| ParentTicketNotFound                      (* new Error('Parent ticket not found') *)
| ChildrenTicketDoesNotExist (childrenId : ID).
                           (* `Children ticket ${childrenId} does not exists` *)

Inductive Promise :=
| Pending
| Fulfilled (v : Value)
| Rejected (reason : Failure).

(** [resolve] and [reject] of [new Promise((resolve, reject) => ...)]:
    the first call settles the promise, later calls do nothing. *)
Definition resolve (v : Value) (p : Promise) : Promise :=
  match p with Pending => Fulfilled v | _ => p end.

Definition reject (e : Failure) (p : Promise) : Promise :=
  match p with Pending => Rejected e | _ => p end.

(** [Promise.all] over promises that have all settled, in the order in
    which they settled: rejected with the first rejection, and fulfilled
    with the array of the values otherwise. *)
Fixpoint Promise_all (ps : list (Failure + Ticket)) : Failure + list Ticket :=
  match ps with
  | [] => inr []
  | inl e :: _ => inl e
  | inr v :: ps' =>
      match Promise_all ps' with
      | inl e => inl e
      | inr ts => inr (v :: ts)
      end
  end.

Definition Resolver := Store → Promise * Store.

(** ** The resolvers of [server.js] *)

(** [Query.tickets]: the root level tickets. *)
Definition tickets : Resolver := λ st,
  (Fulfilled (VArray (findAll_parentId None st)), st).

(** [Query.ticket]. *)
Definition ticket (id : ID) : Resolver := λ st,
  (Fulfilled (from_option VTicket VNull (findByPk id st)), st).

(** [Ticket.children]. *)
Definition children (parent : Ticket) : Resolver := λ st,
  (Fulfilled (VArray (getChildren parent st)), st).

Definition createTicket (title : string) (isCompleted : option bool) : Resolver := λ st,
  let '(t, st') := create title isCompleted st in
  (Fulfilled (VTicket t), st').

Definition updateTicket (id : ID) (title : string) : Resolver := λ st,
  match findByPk id st with
  | None => (Rejected TicketNotFound, st)
  | Some ticket =>
      let '(t, st') := update ticket (Title title) st in
      (Fulfilled (VTicket t), st')
  end.

Definition toggleTicket (id : ID) (isCompleted : bool) : Resolver := λ st,
  match findByPk id st with
  | None => (Rejected TicketNotFound, st)
  | Some ticket =>
      let '(t, st') := update ticket (IsCompleted isCompleted) st in
      (Fulfilled (VTicket t), st')
  end.

(** [removeTicket]: the [.catch] that answers [false] is for a failing
    store; [destroy] of the store above always succeeds. *)
Definition removeTicket (id : ID) : Resolver := λ st,
  match findByPk id st with
  | None => (Fulfilled (VBool false), st)
  | Some ticket => (Fulfilled (VBool true), destroy ticket st)
  end.

(** The callback given to [findByPk(childrenId).then] in
    [addChildrenToTicket], run on what the lookup found.  For a missing
    child, [reject] is called and the following [ticket.update] on [null]
    throws; the [.catch] logs that error. *)
Definition addChild (parentId childrenId : ID) (found : option Ticket)
    (acc : Promise * Store) : Promise * Store :=
  match found with
  | None => (reject (ChildrenTicketDoesNotExist childrenId) acc.1, acc.2)
  | Some ticket =>
      let '(t, st') := update ticket (ParentId (Some parentId)) acc.2 in
      (resolve (VTicket t) acc.1, st')
  end.

(** [addChildrenToTicket]: [forEach] issues the lookups of all the
    children, then the callbacks run in that order on the one promise. *)
Definition addChildrenToTicket (parentId : ID) (childrenIds : list ID) : Resolver := λ st,
  match findByPk parentId st with
  | None => (Rejected ParentTicketNotFound, st)
  | Some _ =>
      foldl (λ acc childrenId, addChild parentId childrenId (findByPk childrenId st) acc)
            (Pending, st) childrenIds
  end.

(** The body of one promise pushed by [addChildrenToTicketReturningArray]. *)
Definition addChildPromise (parentId childrenId : ID) (found : option Ticket)
    (acc : list (Failure + Ticket) * Store) : list (Failure + Ticket) * Store :=
  match found with
  | None => (acc.1 ++ [inl (ChildrenTicketDoesNotExist childrenId)], acc.2)
  | Some ticket =>
      let '(t, st') := update ticket (ParentId (Some parentId)) acc.2 in
      (acc.1 ++ [inr t], st')
  end.

Definition addChildrenToTicketReturningArray (parentId : ID) (childrenIds : list ID)
  : Resolver := λ st,
  match findByPk parentId st with
  | None => (Rejected ParentTicketNotFound, st)
  | Some _ =>
      let '(promises, st') :=
        foldl (λ acc childrenId,
                 addChildPromise parentId childrenId (findByPk childrenId st) acc)
              ([], st) childrenIds in
      (match Promise_all promises with
       | inl e => Rejected e
       | inr res => Fulfilled (VArray res)
       end, st')
  end.

Definition setParentOfTicket (parentId childId : ID) : Resolver := λ st,
  match findByPk childId st with
  | None => (Fulfilled (VBool false), st)
  | Some ticket =>
      let '(t, st') := update ticket (ParentId (Some parentId)) st in
      (Fulfilled (VTicket t), st')
  end.

Definition removeParentFromTicket (id : ID) : Resolver := λ st,
  match findByPk id st with
  | None => (Fulfilled (VBool false), st)
  | Some ticket =>
      let '(t, st') := update ticket (ParentId None) st in
      (Fulfilled (VTicket t), st')
  end.

(** ** Requests, runs and reachable stores *)

(** A mutation as the API receives it. *)
Inductive Mutation :=
| CreateTicket (title : string) (isCompleted : option bool)
| UpdateTicket (id : ID) (title : string)
| ToggleTicket (id : ID) (isCompleted : bool)
| RemoveTicket (id : ID)
| AddChildrenToTicket (parentId : ID) (childrenIds : list ID)
| AddChildrenToTicketReturningArray (parentId : ID) (childrenIds : list ID)
| SetParentOfTicket (parentId childId : ID)
| RemoveParentFromTicket (id : ID).

Definition run (m : Mutation) : Resolver :=
  match m with
  | CreateTicket title isCompleted => createTicket title isCompleted
  | UpdateTicket id title => updateTicket id title
  | ToggleTicket id isCompleted => toggleTicket id isCompleted
  | RemoveTicket id => removeTicket id
  | AddChildrenToTicket parentId childrenIds => addChildrenToTicket parentId childrenIds
  | AddChildrenToTicketReturningArray parentId childrenIds =>
      addChildrenToTicketReturningArray parentId childrenIds
  | SetParentOfTicket parentId childId => setParentOfTicket parentId childId
  | RemoveParentFromTicket id => removeParentFromTicket id
  end.

(** The store after a sequence of mutations. *)
Definition runs (ms : list Mutation) (st : Store) : Store :=
  foldl (λ s m, (run m s).2) st ms.

Inductive reachable : Store → Prop :=
| reachable_empty : reachable TicketStore.empty
| reachable_run m st : reachable st → reachable (run m st).2.

(** ** Ancestor chains *)

(** The parent a ticket refers to, if the ticket exists and has one. *)
Definition parentOf (st : Store) (x : ID) : option ID :=
  findByPk x st ≫= parentId.

(** The ticket reached from [x] by following [parentId] [n] times. *)
Fixpoint ancestor (n : nat) (st : Store) (x : ID) : option ID :=
  match n with
  | O => Some x
  | S n' => parentOf st x ≫= ancestor n' st
  end.

(** Walking the ancestor chain from [x] reaches [y]. *)
Definition reaches (st : Store) (x y : ID) : Prop :=
  ∃ n, ancestor n st x = Some y.

(** No ancestor chain comes back to the ticket it started from. *)
Definition acyclic (st : Store) : Prop :=
  ∀ x n, ancestor (S n) st x ≠ Some x.

(** The root level tickets as a list. *)
Definition roots (st : Store) : list Ticket := findAll_parentId None st.

(** ** Definitions for the statements *)

(** [st'] has no parent reference that [st] does not have. *)
Definition fewer_edges (st' st : Store) : Prop :=
  ∀ x z, parentOf st' x = Some z → parentOf st x = Some z.

(** What one callback of [addChildrenToTicket] or
    [addChildrenToTicketReturningArray] does to the store. *)
Definition reparent (parentId : ID) (found : option Ticket) (st : Store) : Store :=
  match found with
  | None => st
  | Some ticket => (update ticket (ParentId (Some parentId)) st).2
  end.

(** The store after the callbacks of all the children, the lookups
    having been made in [st0]. *)
Definition reparentAll (parentId : ID) (st0 : Store) (childrenIds : list ID)
    (st : Store) : Store :=
  foldl (λ s childrenId, reparent parentId (findByPk childrenId st0) s) st childrenIds.

(** The promise of one child in [addChildrenToTicketReturningArray]. *)
Definition childPromise (parentId : ID) (st0 : Store) (childrenId : ID)
  : Failure + Ticket :=
  match findByPk childrenId st0 with
  | None => inl (ChildrenTicketDoesNotExist childrenId)
  | Some ticket => inr (set_ticket (ParentId (Some parentId)) ticket)
  end.

(** The mutations that do not close a cycle: all but a reassignment
    whose new parent has the child on its ancestor chain. *)
Definition keeps_tree (m : Mutation) (st : Store) : Prop :=
  match m with
  | SetParentOfTicket parentId childId => ¬ reaches st parentId childId
  | AddChildrenToTicket parentId childrenIds
  | AddChildrenToTicketReturningArray parentId childrenIds =>
      ∀ c, c ∈ childrenIds → ¬ reaches st parentId c
  | _ => True
  end.

(** The property of the spec, in its words: after the operation either
    every listed child has the parent [p], or no listed child has
    changed. *)
Definition all_or_nothing (op : ID → list ID → Resolver) (p : ID) (cs : list ID)
    (st : Store) : Prop :=
  let st' := (op p cs st).2 in
  (∀ c, c ∈ cs → ∃ t, findByPk c st' = Some t ∧ parentId t = Some p) ∨
  (∀ c, c ∈ cs → findByPk c st' = findByPk c st).

(** Three root level tickets, with the ids 1, 2 and 3. *)
Definition three_roots : Store :=
  runs [CreateTicket "Epic" None; CreateTicket "A" None; CreateTicket "B" None]
       TicketStore.empty.

(** Ticket 2 under ticket 1, ticket 3 at the root level. *)
Definition one_child : Store := runs [SetParentOfTicket 1 2] three_roots.

(** The answers a resolver gives when the ticket it was asked about is
    not found: one of the two errors, or the boolean [false]. *)
Definition not_found_answer (pr : Promise) : Prop :=
  pr = Rejected TicketNotFound ∨ pr = Rejected ParentTicketNotFound ∨
  pr = Fulfilled (VBool false).

(** The mutations that neither create nor delete a ticket. *)
Definition keeps_tickets (m : Mutation) : Prop :=
  match m with
  | CreateTicket _ _ | RemoveTicket _ => False
  | _ => True
  end.

(** The mutations other than [createTicket]. *)
Definition not_create (m : Mutation) : Prop :=
  match m with
  | CreateTicket _ _ => False
  | _ => True
  end.

(** Every parent reference of the store refers to a ticket of the store. *)
Definition closed (st : Store) : Prop :=
  ∀ x p, parentOf st x = Some p → is_Some (findByPk p st).

(** [setParentOfTicket] is the one mutation that writes a parent it has
    not looked up: the condition that this parent exists. *)
Definition parent_exists (m : Mutation) (st : Store) : Prop :=
  match m with
  | SetParentOfTicket parentId _ => is_Some (findByPk parentId st)
  | _ => True
  end.

(** Every id in use is below the counter of the store. *)
Definition ids_below_counter (st : Store) : Prop :=
  ∀ k, is_Some (findByPk k st) → (k < nextId st)%N.

(** The store after the pattern that six resolvers share: look the
    ticket up, and write one field of it if it is there. *)
Definition write (i : ID) (v : Values) (st : Store) : Store :=
  match findByPk i st with
  | Some ticket => (update ticket v st).2
  | None => st
  end.

(** ** Lemmas on the store *)

Section StoreLemmas.

Implicit Types (st : Store) (t : Ticket) (k : ID) (v : Values).

Lemma set_ticket_instance v k r :
  set_ticket v (instance k r) = instance k (set_row v r).
Proof. by destruct v. Qed.

Lemma id_set_ticket v t : id (set_ticket v t) = id t.
Proof. by destruct v. Qed.

Lemma findByPk_Some k st t :
  findByPk k st = Some t ↔ ∃ r, rows st !! k = Some r ∧ t = instance k r.
Proof.
  unfold findByPk. destruct (rows st !! k) as [r|]; cbn; split.
  - intros [= <-]. eauto.
  - by intros (r' & [= <-] & ->).
  - done.
  - by intros (r' & ? & _).
Qed.

Lemma findByPk_id k st t : findByPk k st = Some t → id t = k.
Proof. intros (r & _ & ->)%findByPk_Some. done. Qed.

Lemma findByPk_None k st : findByPk k st = None ↔ rows st !! k = None.
Proof. unfold findByPk. by destruct (rows st !! k). Qed.

Lemma findByPk_update k t v st :
  findByPk k (update t v st).2 =
    if decide (k = id t) then set_ticket v <$> findByPk k st else findByPk k st.
Proof.
  unfold findByPk, update; cbn. case_decide as Hk.
  - subst k. rewrite lookup_alter_eq.
    destruct (rows st !! id t) as [r|]; cbn; [|done].
    by rewrite set_ticket_instance.
  - by rewrite lookup_alter_ne.
Qed.

Lemma findByPk_update_eq t v st :
  findByPk (id t) st = Some t →
  findByPk (id t) (update t v st).2 = Some (set_ticket v t).
Proof. intros Ht. rewrite findByPk_update, decide_True by done. by rewrite Ht. Qed.

Lemma findByPk_update_ne k t v st :
  k ≠ id t → findByPk k (update t v st).2 = findByPk k st.
Proof. intros. by rewrite findByPk_update, decide_False. Qed.

Lemma findByPk_destroy k t st :
  findByPk k (destroy t st) =
    if decide (k = id t) then None
    else (λ c, if decide (parentId c = Some (id t)) then set_ticket (ParentId None) c else c)
           <$> findByPk k st.
Proof.
  unfold findByPk, destroy; cbn. rewrite lookup_fmap. case_decide as Hk.
  - subst k. by rewrite lookup_delete_eq.
  - rewrite lookup_delete_ne by done.
    destruct (rows st !! k) as [r|]; cbn; [|done].
    unfold orphan. cbn. by case_decide.
Qed.

Lemma findByPk_create k title ic st :
  findByPk k (create title ic st).2 =
    if decide (k = nextId st) then Some (create title ic st).1 else findByPk k st.
Proof.
  unfold findByPk, create; cbn. case_decide as Hk.
  - subst k. by rewrite lookup_insert_eq.
  - by rewrite lookup_insert_ne.
Qed.

(** What a scan on the parent reference returns: the stored tickets
    with that reference. *)
Lemma elem_of_findAll_parentId t p st :
  t ∈ findAll_parentId p st ↔ findByPk (id t) st = Some t ∧ parentId t = p.
Proof.
  unfold findAll_parentId. rewrite list_elem_of_filter, list_elem_of_fmap. split.
  - intros [Hp ([k r] & -> & Hkr%elem_of_map_to_list)]. cbn in *.
    split; [|done]. apply findByPk_Some. eauto.
  - intros [(r & Hr & Ht)%findByPk_Some Hp]. split; [done|].
    exists (id t, r). split; [done|]. by apply elem_of_map_to_list.
Qed.

(** Two stores with the same records and the same counter are equal. *)
Lemma Store_eq st1 st2 :
  rows st1 = rows st2 → nextId st1 = nextId st2 → st1 = st2.
Proof. destruct st1, st2; cbn. by intros -> ->. Qed.

End StoreLemmas.

(** ** Lemmas on ancestor chains *)

Section Ancestors.

Implicit Types (st : Store) (x y z : ID) (n m : nat).

Lemma ancestor_S n st x :
  ancestor (S n) st x = parentOf st x ≫= ancestor n st.
Proof. done. Qed.

(** Walking [n] steps and then [m] steps is walking [n + m] steps. *)
Lemma ancestor_add n m st x y z :
  ancestor n st x = Some y → ancestor m st y = Some z →
  ancestor (n + m) st x = Some z.
Proof.
  revert x. induction n as [|n IH]; intros x; cbn.
  - by intros [= ->].
  - destruct (parentOf st x) as [w|]; cbn; [|done]. apply IH.
Qed.

Lemma ancestor_fewer_edges st' st n x y :
  fewer_edges st' st → ancestor n st' x = Some y → ancestor n st x = Some y.
Proof.
  intros Hsub. revert x. induction n as [|n IH]; intros x; cbn; [done|].
  destruct (parentOf st' x) as [w|] eqn:Hw; cbn; [|done].
  rewrite (Hsub _ _ Hw); cbn. apply IH.
Qed.

Lemma acyclic_fewer_edges st' st :
  fewer_edges st' st → acyclic st → acyclic st'.
Proof.
  intros Hsub Hac x n Hx. apply (Hac x n).
  by apply (ancestor_fewer_edges st').
Qed.

Lemma acyclic_empty : acyclic TicketStore.empty.
Proof. intros x n. cbn. unfold parentOf, findByPk. cbn. by rewrite lookup_empty. Qed.

(** Giving one ticket [c] the parent [p], in a store where the chain of
    [p] does not pass through [c]. *)
Section Reparent.

Variables (st st' : Store) (p c : ID).
Hypothesis Hother : ∀ x, x ≠ c → parentOf st' x = parentOf st x.
Hypothesis Hchild : ∀ z, parentOf st' c = Some z → z = p.

(** A chain that avoids [c] is the same chain afterwards. *)
Lemma ancestor_reparent_avoid n x :
  (∀ m, ancestor m st x ≠ Some c) → ancestor n st' x = ancestor n st x.
Proof.
  revert x. induction n as [|n IH]; intros x Hx; cbn; [done|].
  assert (x ≠ c) as Hxc by (intros ->; by apply (Hx 0)).
  rewrite (Hother _ Hxc).
  destruct (parentOf st x) as [w|] eqn:Hw; cbn; [|done].
  apply IH. intros m Hm. apply (Hx (S m)). cbn. by rewrite Hw.
Qed.

(** A chain of the new store is a chain of the old one, or it is a
    chain of the old store up to [c] followed by a chain from [c]. *)
Lemma ancestor_reparent_split n x y :
  ancestor n st' x = Some y →
  ancestor n st x = Some y ∨
  ∃ k m, n = k + m ∧ ancestor k st x = Some c ∧ ancestor m st' c = Some y.
Proof.
  revert x. induction n as [|n IH]; intros x Hn; [by left|].
  destruct (decide (x = c)) as [->|Hxc].
  { right. by exists 0, (S n). }
  cbn in Hn. rewrite (Hother _ Hxc) in Hn.
  destruct (parentOf st x) as [w|] eqn:Hw; cbn in Hn; [|done].
  destruct (IH _ Hn) as [Hl|(k & m & -> & Hk & Hm)].
  - left. cbn. by rewrite Hw.
  - right. exists (S k), m. split_and!; [done| |done]. cbn. by rewrite Hw.
Qed.

Lemma acyclic_reparent :
  (∀ n, ancestor n st p ≠ Some c) → acyclic st → acyclic st'.
Proof.
  intros Hsafe Hac x n Hx.
  destruct (ancestor_reparent_split _ _ _ Hx) as [Hl|(k & m & Hkm & Hk & Hm)].
  { by apply (Hac x n). }
  destruct m as [|m].
  { assert (x = c) as Hxc by (cbn in Hm; congruence). rewrite Hxc in Hk.
    replace k with (S n) in Hk by lia. by apply (Hac c n). }
  cbn in Hm. destruct (parentOf st' c) as [z|] eqn:Hz; cbn in Hm; [|done].
  assert (z = p) as -> by (by apply Hchild).
  rewrite (ancestor_reparent_avoid _ _ Hsafe) in Hm.
  apply (Hsafe (m + k)). by apply (ancestor_add m k st p x c).
Qed.

End Reparent.

(** *** The parent references after each store operation *)

Lemma parentOf_update_ParentId st t q x :
  parentOf (update t (ParentId q) st).2 x =
    if decide (x = id t) then findByPk x st ≫= λ _, q else parentOf st x.
Proof.
  unfold parentOf. rewrite findByPk_update. case_decide; [|done].
  by destruct (findByPk x st).
Qed.

Lemma parentOf_update_Title st t s x :
  parentOf (update t (Title s) st).2 x = parentOf st x.
Proof.
  unfold parentOf. rewrite findByPk_update. case_decide; [|done].
  by destruct (findByPk x st).
Qed.

Lemma parentOf_update_IsCompleted st t b x :
  parentOf (update t (IsCompleted b) st).2 x = parentOf st x.
Proof.
  unfold parentOf. rewrite findByPk_update. case_decide; [|done].
  by destruct (findByPk x st).
Qed.

Lemma fewer_edges_update_null st t :
  fewer_edges (update t (ParentId None) st).2 st.
Proof.
  intros x z. rewrite parentOf_update_ParentId. case_decide; [|done].
  by destruct (findByPk x st).
Qed.

Lemma fewer_edges_create st title ic :
  fewer_edges (create title ic st).2 st.
Proof.
  intros x z. unfold parentOf. rewrite findByPk_create. by case_decide.
Qed.

Lemma fewer_edges_destroy st t :
  fewer_edges (destroy t st) st.
Proof.
  intros x z. unfold parentOf. rewrite findByPk_destroy. case_decide; [done|].
  destruct (findByPk x st) as [c|]; cbn; [|done]. by case_decide.
Qed.

Lemma acyclic_update_parent st t p :
  (∀ n, ancestor n st p ≠ Some (id t)) → acyclic st →
  acyclic (update t (ParentId (Some p)) st).2.
Proof.
  apply acyclic_reparent.
  - intros x Hx. by rewrite parentOf_update_ParentId, decide_False.
  - intros z. rewrite parentOf_update_ParentId, decide_True by done.
    destruct (findByPk _ st); cbn; congruence.
Qed.

Lemma ancestor_update_parent_avoid st t p n x :
  (∀ m, ancestor m st x ≠ Some (id t)) →
  ancestor n (update t (ParentId (Some p)) st).2 x = ancestor n st x.
Proof.
  apply ancestor_reparent_avoid.
  intros y Hy. by rewrite parentOf_update_ParentId, decide_False.
Qed.

End Ancestors.

(** ** Lemmas on the bulk reassignment *)

Section Bulk.

Implicit Types (st : Store) (p c k : ID) (cs : list ID).

Lemma addChild_store p c found acc :
  (addChild p c found acc).2 = reparent p found acc.2.
Proof. by destruct found. Qed.

Lemma addChildPromise_store p c found acc :
  (addChildPromise p c found acc).2 = reparent p found acc.2.
Proof. by destruct found. Qed.

Lemma addChild_fold_store p st0 cs acc :
  (foldl (λ a c, addChild p c (findByPk c st0) a) acc cs).2
  = reparentAll p st0 cs acc.2.
Proof.
  revert acc. induction cs as [|c cs IH]; intros acc; cbn; [done|].
  by rewrite IH, addChild_store.
Qed.

(** Once the promise has settled, the later callbacks leave it. *)
Lemma addChild_fold_settled p st0 cs acc :
  acc.1 ≠ Pending →
  (foldl (λ a c, addChild p c (findByPk c st0) a) acc cs).1 = acc.1.
Proof.
  revert acc. induction cs as [|c cs IH]; intros acc Hs; cbn; [done|].
  rewrite IH.
  - unfold addChild. destruct (findByPk c st0); cbn; by destruct acc.1.
  - unfold addChild. destruct (findByPk c st0); cbn; by destruct acc.1.
Qed.

Lemma addChildPromise_fold p st0 cs acc :
  foldl (λ a c, addChildPromise p c (findByPk c st0) a) acc cs
  = (acc.1 ++ (childPromise p st0 <$> cs), reparentAll p st0 cs acc.2).
Proof.
  revert acc. induction cs as [|c cs IH]; intros [ps st]; cbn.
  - by rewrite app_nil_r.
  - rewrite IH. unfold addChildPromise, childPromise, reparent.
    destruct (findByPk c st0); cbn; by rewrite <- app_assoc.
Qed.

(** The two resolvers leave the same store. *)
Lemma addChildrenToTicket_store p cs st :
  (addChildrenToTicket p cs st).2 =
    match findByPk p st with Some _ => reparentAll p st cs st | None => st end.
Proof.
  unfold addChildrenToTicket. destruct (findByPk p st); [|done].
  by rewrite addChild_fold_store.
Qed.

Lemma addChildrenToTicketReturningArray_store p cs st :
  (addChildrenToTicketReturningArray p cs st).2 =
    match findByPk p st with Some _ => reparentAll p st cs st | None => st end.
Proof.
  unfold addChildrenToTicketReturningArray. destruct (findByPk p st); [|done].
  by rewrite addChildPromise_fold.
Qed.

Lemma addChildrenToTicketReturningArray_result p cs st :
  is_Some (findByPk p st) →
  (addChildrenToTicketReturningArray p cs st).1 =
    match Promise_all (childPromise p st <$> cs) with
    | inl e => Rejected e
    | inr res => Fulfilled (VArray res)
    end.
Proof.
  intros [t Ht]. unfold addChildrenToTicketReturningArray. rewrite Ht.
  by rewrite addChildPromise_fold.
Qed.

(** The tickets after the bulk reassignment: a listed id that was found
    has the new parent, every other ticket is as before. *)
Lemma findByPk_reparentAll p st0 cs st k :
  findByPk k (reparentAll p st0 cs st) =
    if decide (k ∈ cs ∧ is_Some (findByPk k st0))
    then set_ticket (ParentId (Some p)) <$> findByPk k st
    else findByPk k st.
Proof.
  revert st. induction cs as [|c cs IH]; intros st; cbn.
  { rewrite decide_False; [done|]. intros [?%elem_of_nil _]. done. }
  unfold reparentAll in IH. rewrite IH. clear IH.
  assert (findByPk k (reparent p (findByPk c st0) st) =
          if decide (k = c ∧ is_Some (findByPk k st0))
          then set_ticket (ParentId (Some p)) <$> findByPk k st
          else findByPk k st) as ->.
  { unfold reparent. destruct (findByPk c st0) as [t|] eqn:Hc.
    - rewrite findByPk_update, (findByPk_id _ _ _ Hc).
      case_decide as Hk.
      + subst k. rewrite decide_True; [done|]. by rewrite Hc.
      + rewrite decide_False; [done|]. by intros [? _].
    - rewrite decide_False; [done|]. intros [-> [? ?]]. congruence. }
  destruct (decide (k = c)) as [->|Hkc].
  - destruct (findByPk c st0) as [t|] eqn:Hc.
    + rewrite (decide_True (P := c = c ∧ _)) by eauto.
      rewrite (decide_True (P := c ∈ c :: cs ∧ _)) by (split; [left|eauto]).
      case_decide; [|done]. by destruct (findByPk c st).
    + assert (∀ P : Prop, ¬ (P ∧ is_Some (@None Ticket))) as Hno
        by (intros P [_ Hs]; by apply is_Some_None in Hs).
      by rewrite !decide_False.
  - rewrite (decide_False (P := k = c ∧ _)) by (by intros [? _]).
    apply decide_ext. rewrite elem_of_cons. tauto.
Qed.

Lemma nextId_reparentAll p st0 cs st :
  nextId (reparentAll p st0 cs st) = nextId st.
Proof.
  revert st. induction cs as [|c cs IH]; intros st; cbn; [done|].
  unfold reparentAll in IH. rewrite IH. unfold reparent.
  by destruct (findByPk c st0).
Qed.

(** The bulk reassignment keeps the store acyclic when the chain of the
    parent passes through none of the children. *)
Lemma acyclic_reparentAll p st0 cs st :
  (∀ c, c ∈ cs → ¬ reaches st p c) → acyclic st →
  acyclic (reparentAll p st0 cs st).
Proof.
  revert st. induction cs as [|c cs IH]; intros st Hsafe Hac; cbn; [done|].
  assert (∀ n, ancestor n st p ≠ Some c) as Hc.
  { intros n Hn. apply (Hsafe c); [left|]. by exists n. }
  apply IH.
  - intros c' Hc' [n Hn]. apply (Hsafe c'); [by right|]. exists n.
    unfold reparent in Hn. destruct (findByPk c st0) as [t|] eqn:Ht; [|done].
    rewrite ancestor_update_parent_avoid in Hn; [done|].
    by rewrite (findByPk_id _ _ _ Ht).
  - unfold reparent. destruct (findByPk c st0) as [t|] eqn:Ht; [|done].
    apply acyclic_update_parent; [|done]. by rewrite (findByPk_id _ _ _ Ht).
Qed.

(** [Promise.all] over the children: fulfilled when all were found. *)
Lemma Promise_all_found p st cs :
  Forall (λ c, is_Some (findByPk c st)) cs →
  Promise_all (childPromise p st <$> cs)
  = inr (omap (λ c, set_ticket (ParentId (Some p)) <$> findByPk c st) cs).
Proof.
  induction 1 as [|c cs [t Ht] _ IH]; cbn; [done|].
  unfold childPromise at 1. rewrite Ht; cbn. by rewrite IH.
Qed.

(** [Promise.all] over the children: rejected with the first id that
    was not found. *)
Lemma Promise_all_missing p st l1 c l2 :
  Forall (λ c, is_Some (findByPk c st)) l1 → findByPk c st = None →
  Promise_all (childPromise p st <$> (l1 ++ c :: l2))
  = inl (ChildrenTicketDoesNotExist c).
Proof.
  intros Hl1 Hc. induction Hl1 as [|c1 l1 [t Ht] _ IH]; cbn.
  - unfold childPromise at 1. by rewrite Hc.
  - unfold childPromise at 1. rewrite Ht; cbn. by rewrite IH.
Qed.

End Bulk.

(** ** The stores of the examples *)

Lemma reachable_runs ms st : reachable st → reachable (runs ms st).
Proof.
  revert st. induction ms as [|m ms IH]; intros st Hst; cbn; [done|].
  apply IH. by constructor.
Qed.

Lemma reachable_three_roots : reachable three_roots.
Proof. apply reachable_runs. constructor. Qed.

Lemma reachable_one_child : reachable one_child.
Proof. apply reachable_runs, reachable_three_roots. Qed.

(** A ticket without a parent reaches only itself. *)
Lemma reaches_root st x y : parentOf st x = None → x ≠ y → ¬ reaches st x y.
Proof.
  intros Hx Hxy [[|n] Hn]; cbn in Hn; [congruence|].
  by rewrite Hx in Hn.
Qed.

(** ** Acyclicity *)

Lemma acyclic_run m st : acyclic st → keeps_tree m st → acyclic (run m st).2.
Proof.
  intros Hac Hm. destruct m as [s ic|i s|i b|i|p cs|p cs|p c|i]; cbn in *.
  - change (acyclic (create s ic st).2).
    apply (acyclic_fewer_edges _ st); [apply fewer_edges_create|done].
  - unfold updateTicket. destruct (findByPk i st) as [t|]; [|done].
    change (acyclic (update t (Title s) st).2).
    apply (acyclic_fewer_edges _ st); [|done].
    intros x z. by rewrite parentOf_update_Title.
  - unfold toggleTicket. destruct (findByPk i st) as [t|]; [|done].
    change (acyclic (update t (IsCompleted b) st).2).
    apply (acyclic_fewer_edges _ st); [|done].
    intros x z. by rewrite parentOf_update_IsCompleted.
  - unfold removeTicket. destruct (findByPk i st) as [t|]; [|done].
    change (acyclic (destroy t st)).
    apply (acyclic_fewer_edges _ st); [apply fewer_edges_destroy|done].
  - rewrite addChildrenToTicket_store. destruct (findByPk p st); [|done].
    by apply acyclic_reparentAll.
  - rewrite addChildrenToTicketReturningArray_store. destruct (findByPk p st); [|done].
    by apply acyclic_reparentAll.
  - unfold setParentOfTicket. destruct (findByPk c st) as [t|] eqn:Ht; [|done].
    change (acyclic (update t (ParentId (Some p)) st).2).
    apply acyclic_update_parent; [|done].
    rewrite (findByPk_id _ _ _ Ht). intros n Hn. apply Hm. by exists n.
  - unfold removeParentFromTicket. destruct (findByPk i st) as [t|]; [|done].
    change (acyclic (update t (ParentId None) st).2).
    apply (acyclic_fewer_edges _ st); [apply fewer_edges_update_null|done].
Qed.

Lemma acyclic_three_roots : acyclic three_roots.
Proof.
  unfold three_roots.
  repeat (apply (acyclic_run _ _); [|exact I]).
  apply acyclic_empty.
Qed.

(** C1, as the code has it: acyclicity is kept by [createTicket],
    [updateTicket], [toggleTicket], [removeTicket] and
    [removeParentFromTicket], and by [setParentOfTicket],
    [addChildrenToTicket] and [addChildrenToTicketReturningArray] when
    walking the ancestor chain from the proposed parent reaches no ticket
    that is given that parent.  [setParentOfTicket] itself makes no such
    check: whenever the child exists it is fulfilled with the child, whose
    [parentId] is set to the proposed parent. *)
Theorem C1_acyclic_kept_without_cycle_check :
  (∀ m st, acyclic st → keeps_tree m st → acyclic (run m st).2) ∧
  (∀ parentId childId st t,
     findByPk childId st = Some t →
     setParentOfTicket parentId childId st
     = (Fulfilled (VTicket (set_ticket (ParentId (Some parentId)) t)),
        (update t (ParentId (Some parentId)) st).2)).
Proof.
  split; [apply acyclic_run|].
  intros p c st t Ht. unfold setParentOfTicket. by rewrite Ht.
Qed.

Lemma C1_acyclic_kept_witness :
  acyclic three_roots ∧ keeps_tree (SetParentOfTicket 1 2) three_roots ∧
  acyclic (run (SetParentOfTicket 1 2) three_roots).2 ∧
  findByPk 2 three_roots
  = Some {| id := 2; title := "A"; isCompleted := false; parentId := None |} ∧
  (setParentOfTicket 1 2 three_roots).1
  = Fulfilled (VTicket {| id := 2; title := "A"; isCompleted := false;
                          parentId := Some 1%N |}).
Proof.
  assert (keeps_tree (SetParentOfTicket 1 2) three_roots) as Hk.
  { apply reaches_root; [by vm_compute|done]. }
  split_and!.
  - apply acyclic_three_roots.
  - exact Hk.
  - apply (proj1 C1_acyclic_kept_without_cycle_check);
      [apply acyclic_three_roots|exact Hk].
  - by vm_compute.
  - rewrite (proj2 C1_acyclic_kept_without_cycle_check 1%N 2%N three_roots
               {| id := 2; title := "A"; isCompleted := false; parentId := None |});
      [done|by vm_compute].
Defined.

(** C1 fails on the code: in the reachable store where ticket 2 is a
    child of ticket 1, walking the ancestor chain from 2 reaches 1, and
    yet [setParentOfTicket 2 1] is fulfilled, changes the store, and
    leaves a reachable store in which the chain from ticket 1 comes back
    to ticket 1. *)
Lemma C1_counterexample :
  reachable one_child ∧ acyclic one_child ∧ reaches one_child 2 1 ∧
  (setParentOfTicket 2 1 one_child).1
  = Fulfilled (VTicket {| id := 1; title := "Epic"; isCompleted := false;
                          parentId := Some 2%N |}) ∧
  (setParentOfTicket 2 1 one_child).2 ≠ one_child ∧
  reachable (setParentOfTicket 2 1 one_child).2 ∧
  ¬ acyclic (setParentOfTicket 2 1 one_child).2.
Proof.
  split_and!.
  - apply reachable_one_child.
  - apply (acyclic_run (SetParentOfTicket 1 2) three_roots).
    + apply acyclic_three_roots.
    + apply reaches_root; [by vm_compute|done].
  - by exists 1.
  - by vm_compute.
  - intros Heq. apply (f_equal (findByPk 1)) in Heq. vm_compute in Heq. done.
  - apply (reachable_run (SetParentOfTicket 2 1)), reachable_one_child.
  - intros Hac. by apply (Hac 1%N 1).
Qed.

(** ** A ticket as its own parent *)

(** C2, as the code has it: for every id of an existing ticket,
    [setParentOfTicket id id] is fulfilled with the ticket made its own
    parent and stores it so; the ticket's id, title and completion flag
    and every other ticket are as before. *)
Theorem C2_self_parent_is_accepted (i : ID) (st : Store) (t : Ticket) :
  findByPk i st = Some t →
  let t' := {| id := i; title := title t; isCompleted := isCompleted t;
               parentId := Some i |} in
  (setParentOfTicket i i st).1 = Fulfilled (VTicket t') ∧
  findByPk i (setParentOfTicket i i st).2 = Some t' ∧
  ∀ k, k ≠ i → findByPk k (setParentOfTicket i i st).2 = findByPk k st.
Proof.
  intros Ht t'. pose proof (findByPk_id _ _ _ Ht) as Hi.
  assert (set_ticket (ParentId (Some i)) t = t') as Ht'.
  { unfold t'. cbn. by rewrite Hi. }
  unfold setParentOfTicket. rewrite Ht.
  change ((Fulfilled (VTicket (update t (ParentId (Some i)) st).1) = Fulfilled (VTicket t')) ∧
          findByPk i (update t (ParentId (Some i)) st).2 = Some t' ∧
          ∀ k, k ≠ i → findByPk k (update t (ParentId (Some i)) st).2 = findByPk k st).
  split_and!.
  - cbn [update fst]. by rewrite Ht'.
  - rewrite <- Hi at 1. rewrite findByPk_update_eq by (by rewrite Hi). by rewrite Ht'.
  - intros k Hk. apply findByPk_update_ne. by rewrite Hi.
Qed.

Lemma C2_self_parent_witness :
  findByPk 1 three_roots
  = Some {| id := 1; title := "Epic"; isCompleted := false; parentId := None |} ∧
  (setParentOfTicket 1 1 three_roots).1
  = Fulfilled (VTicket {| id := 1; title := "Epic"; isCompleted := false;
                          parentId := Some 1%N |}).
Proof.
  assert (findByPk 1 three_roots
          = Some {| id := 1; title := "Epic"; isCompleted := false; parentId := None |})
    as Ht by (by vm_compute).
  split; [exact Ht|].
  exact (proj1 (C2_self_parent_is_accepted 1%N three_roots _ Ht)).
Defined.

(** C2 fails on the code: [setParentOfTicket 1 1] on a store that has
    ticket 1 is not rejected, and the stored ticket is modified: it has
    become its own parent. *)
Lemma C2_counterexample :
  findByPk 1 three_roots
  = Some {| id := 1; title := "Epic"; isCompleted := false; parentId := None |} ∧
  (setParentOfTicket 1 1 three_roots).1
  = Fulfilled (VTicket {| id := 1; title := "Epic"; isCompleted := false;
                          parentId := Some 1%N |}) ∧
  findByPk 1 (setParentOfTicket 1 1 three_roots).2
  = Some {| id := 1; title := "Epic"; isCompleted := false; parentId := Some 1%N |}.
Proof. by vm_compute. Qed.

(** ** Bulk reassignment *)

(** C3, as the code has it: for an existing parent and any list of child
    ids, both resolvers leave the same store; in it every listed id that
    exists has the new parent, whatever the other ids are, a listed id
    that does not exist still does not, and every ticket that is not
    listed is as before.  When some listed id does not exist,
    [addChildrenToTicketReturningArray] is rejected with the first such
    id; [addChildrenToTicket] is rejected with it when it is the first of
    the list. *)
Theorem C3_bulk_reassignment_is_per_child (p : ID) (cs : list ID) (st : Store) :
  is_Some (findByPk p st) →
  let st' := (addChildrenToTicket p cs st).2 in
  (addChildrenToTicketReturningArray p cs st).2 = st' ∧
  (∀ c t, c ∈ cs → findByPk c st = Some t →
          findByPk c st' = Some (set_ticket (ParentId (Some p)) t)) ∧
  (∀ c, c ∈ cs → findByPk c st = None → findByPk c st' = None) ∧
  (∀ k, k ∉ cs → findByPk k st' = findByPk k st) ∧
  (∀ l1 c l2, cs = l1 ++ c :: l2 →
              Forall (λ x, is_Some (findByPk x st)) l1 → findByPk c st = None →
              (addChildrenToTicketReturningArray p cs st).1
              = Rejected (ChildrenTicketDoesNotExist c)) ∧
  (∀ c l2, cs = c :: l2 → findByPk c st = None →
           (addChildrenToTicket p cs st).1 = Rejected (ChildrenTicketDoesNotExist c)).
Proof.
  intros Hp st'. pose proof Hp as [tp Htp].
  assert (st' = reparentAll p st cs st) as Hst'.
  { unfold st'. by rewrite addChildrenToTicket_store, Htp. }
  split_and!.
  - by rewrite addChildrenToTicketReturningArray_store, Htp.
  - intros c t Hc Ht. rewrite Hst', findByPk_reparentAll, decide_True, Ht; [done|].
    split; [done|]. by rewrite Ht.
  - intros c Hc Hn. rewrite Hst', findByPk_reparentAll, Hn. by case_decide.
  - intros k Hk. rewrite Hst', findByPk_reparentAll, decide_False; [done|].
    by intros [? _].
  - intros l1 c l2 -> Hl1 Hc.
    rewrite addChildrenToTicketReturningArray_result by done.
    by rewrite Promise_all_missing.
  - intros c l2 -> Hc. unfold addChildrenToTicket. rewrite Htp. cbn [foldl].
    rewrite addChild_fold_settled; unfold addChild; by rewrite Hc.
Qed.

(** Ticket 2 exists and ticket 99 does not. *)
Lemma C3_bulk_reassignment_witness :
  is_Some (findByPk 1 three_roots) ∧
  findByPk 2 (addChildrenToTicket 1 [2; 99]%N three_roots).2
  = Some {| id := 2; title := "A"; isCompleted := false; parentId := Some 1%N |} ∧
  (addChildrenToTicketReturningArray 1 [2; 99]%N three_roots).1
  = Rejected (ChildrenTicketDoesNotExist 99).
Proof.
  assert (is_Some (findByPk 1 three_roots)) as Hp by (eexists; by vm_compute).
  destruct (C3_bulk_reassignment_is_per_child 1%N [2; 99]%N three_roots Hp)
    as (_ & Hfound & _ & _ & Hall & _).
  split_and!.
  - exact Hp.
  - apply (Hfound 2%N {| id := 2; title := "A"; isCompleted := false; parentId := None |});
      [left|by vm_compute].
  - apply (Hall [2%N] 99%N []); [done| |by vm_compute].
    repeat constructor. eexists; by vm_compute.
Defined.

(** C3 fails on the code: with the existing parent 1 and the children
    2 (existing) and 99 (missing), neither resolver is all-or-nothing:
    ticket 2 is moved under ticket 1 although 99 does not exist.
    [addChildrenToTicketReturningArray] is rejected and has applied that
    reassignment; [addChildrenToTicket] is not rejected at all. *)
Lemma C3_counterexample :
  is_Some (findByPk 1 three_roots) ∧ findByPk 99 three_roots = None ∧
  findByPk 2 three_roots
  = Some {| id := 2; title := "A"; isCompleted := false; parentId := None |} ∧
  ¬ all_or_nothing addChildrenToTicket 1 [2; 99]%N three_roots ∧
  ¬ all_or_nothing addChildrenToTicketReturningArray 1 [2; 99]%N three_roots ∧
  (addChildrenToTicketReturningArray 1 [2; 99]%N three_roots).1
  = Rejected (ChildrenTicketDoesNotExist 99) ∧
  findByPk 2 (addChildrenToTicketReturningArray 1 [2; 99]%N three_roots).2
  = Some {| id := 2; title := "A"; isCompleted := false; parentId := Some 1%N |} ∧
  (addChildrenToTicket 1 [2; 99]%N three_roots).1
  = Fulfilled (VTicket {| id := 2; title := "A"; isCompleted := false;
                          parentId := Some 1%N |}).
Proof.
  split_and!; try (by vm_compute).
  - eexists; by vm_compute.
  - intros [Hall|Hnone].
    + destruct (Hall 99%N) as (t & Ht & _); [right; left|].
      vm_compute in Ht. done.
    + specialize (Hnone 2%N). vm_compute in Hnone. by discriminate Hnone; left.
  - intros [Hall|Hnone].
    + destruct (Hall 99%N) as (t & Ht & _); [right; left|].
      vm_compute in Ht. done.
    + specialize (Hnone 2%N). vm_compute in Hnone. by discriminate Hnone; left.
Qed.

(** Writing the same field twice is writing it once. *)
Lemma update_update t v st :
  (update t v (update t v st).2).2 = (update t v st).2.
Proof.
  apply Store_eq; [|done]. cbn. apply map_eq. intros k.
  destruct (decide (id t = k)) as [<-|Hne].
  - rewrite !lookup_alter_eq.
    destruct (rows st !! id t) as [r|]; cbn; [|done]. by destruct v.
  - by rewrite !lookup_alter_ne.
Qed.

(** C6: for an existing parent [p] and an existing child [c],
    [addChildrenToTicket p [c; c]] leaves the same store as
    [addChildrenToTicket p [c]]. *)
Theorem C6_duplicate_child_same_store (p c : ID) (st : Store) :
  is_Some (findByPk p st) → is_Some (findByPk c st) →
  (addChildrenToTicket p [c; c] st).2 = (addChildrenToTicket p [c] st).2.
Proof.
  intros [tp Hp] [t Hc]. unfold addChildrenToTicket. rewrite Hp. cbn [foldl].
  unfold addChild. rewrite Hc.
  change ((update t (ParentId (Some p)) (update t (ParentId (Some p)) st).2).2
          = (update t (ParentId (Some p)) st).2).
  apply update_update.
Qed.

Lemma C6_duplicate_child_witness :
  is_Some (findByPk 1 three_roots) ∧ is_Some (findByPk 2 three_roots) ∧
  (addChildrenToTicket 1 [2; 2]%N three_roots).2
  = (addChildrenToTicket 1 [2]%N three_roots).2.
Proof.
  assert (is_Some (findByPk 1 three_roots)) as Hp by (eexists; by vm_compute).
  assert (is_Some (findByPk 2 three_roots)) as Hc by (eexists; by vm_compute).
  split_and!; [exact Hp|exact Hc|].
  exact (C6_duplicate_child_same_store 1%N 2%N three_roots Hp Hc).
Defined.

(** With no child at all, nothing settles the promise of
    [addChildrenToTicket]. *)
Lemma addChildrenToTicket_no_children p st :
  is_Some (findByPk p st) → addChildrenToTicket p [] st = (Pending, st).
Proof. intros [t Ht]. unfold addChildrenToTicket. by rewrite Ht. Qed.

(** C8, as the code has it: when the parent and the first listed child
    exist, [addChildrenToTicket] is fulfilled with that child, updated
    (not with the parent); when the parent and all the listed children
    exist, [addChildrenToTicketReturningArray] is fulfilled with the
    updated children, one for each listed id in the order of the list,
    each with the new parent and as it is stored; both are rejected with
    'Parent ticket not found' and leave the store when the parent does
    not exist. *)
Theorem C8_bulk_reassignment_results (p : ID) (cs : list ID) (st : Store) :
  (∀ c l t, cs = c :: l → is_Some (findByPk p st) → findByPk c st = Some t →
            (addChildrenToTicket p cs st).1
            = Fulfilled (VTicket (set_ticket (ParentId (Some p)) t))) ∧
  (is_Some (findByPk p st) → Forall (λ c, is_Some (findByPk c st)) cs →
   ∃ ts, (addChildrenToTicketReturningArray p cs st).1 = Fulfilled (VArray ts) ∧
         id <$> ts = cs ∧
         Forall (λ t, parentId t = Some p ∧
                      findByPk (id t) (addChildrenToTicketReturningArray p cs st).2
                      = Some t) ts) ∧
  (findByPk p st = None →
   addChildrenToTicket p cs st = (Rejected ParentTicketNotFound, st) ∧
   addChildrenToTicketReturningArray p cs st = (Rejected ParentTicketNotFound, st)).
Proof.
  split_and!.
  - intros c l t -> [tp Hp] Hc. unfold addChildrenToTicket. rewrite Hp. cbn [foldl].
    rewrite addChild_fold_settled; unfold addChild; by rewrite Hc.
  - intros Hp Hall. pose proof Hp as [tp Htp].
    exists (omap (λ c, set_ticket (ParentId (Some p)) <$> findByPk c st) cs).
    split_and!.
    + rewrite addChildrenToTicketReturningArray_result by done.
      by rewrite Promise_all_found.
    + induction Hall as [|c l [t Ht] _ IH]; cbn; [done|].
      rewrite Ht. cbn. by rewrite IH, (findByPk_id _ _ _ Ht).
    + rewrite addChildrenToTicketReturningArray_store, Htp.
      apply Forall_forall. intros t' (c & Hc & Ht')%list_elem_of_omap.
      destruct (findByPk c st) as [t|] eqn:Ht; [|done].
      injection Ht' as <-. split; [done|].
      cbn [id]. rewrite (findByPk_id _ _ _ Ht).
      rewrite findByPk_reparentAll, decide_True, Ht; [by rewrite <- (findByPk_id _ _ _ Ht)|].
      split; [done|]. by rewrite Ht.
  - intros Hp. unfold addChildrenToTicket, addChildrenToTicketReturningArray.
    by rewrite Hp.
Qed.

Lemma C8_bulk_reassignment_witness :
  is_Some (findByPk 1 three_roots) ∧
  Forall (λ c, is_Some (findByPk c three_roots)) [2; 3]%N ∧
  (addChildrenToTicket 1 [2; 3]%N three_roots).1
  = Fulfilled (VTicket {| id := 2; title := "A"; isCompleted := false;
                          parentId := Some 1%N |}) ∧
  (∃ ts, (addChildrenToTicketReturningArray 1 [2; 3]%N three_roots).1
         = Fulfilled (VArray ts) ∧ id <$> ts = [2; 3]%N) ∧
  findByPk 9 three_roots = None ∧
  addChildrenToTicket 9 [2; 3]%N three_roots = (Rejected ParentTicketNotFound, three_roots).
Proof.
  assert (is_Some (findByPk 1 three_roots)) as Hp by (eexists; by vm_compute).
  assert (Forall (λ c, is_Some (findByPk c three_roots)) [2; 3]%N) as Hcs
    by (repeat constructor; eexists; by vm_compute).
  assert (findByPk 9 three_roots = None) as Hn by (by vm_compute).
  destruct (C8_bulk_reassignment_results 1%N [2; 3]%N three_roots) as (Hfirst & Hall & _).
  destruct (C8_bulk_reassignment_results 9%N [2; 3]%N three_roots) as (_ & _ & Hnone).
  split_and!; [exact Hp|exact Hcs| | |exact Hn|].
  - apply (Hfirst 2%N [3%N] {| id := 2; title := "A"; isCompleted := false;
                               parentId := None |}); [done|exact Hp|by vm_compute].
  - destruct (Hall Hp Hcs) as (ts & Hts & Hids & _). by exists ts.
  - exact (proj1 (Hnone Hn)).
Defined.

(** C8 fails on the code: [addChildrenToTicket 1 [2]] is fulfilled with
    ticket 2, the child, while the updated parent is ticket 1. *)
Lemma C8_counterexample :
  (addChildrenToTicket 1 [2]%N three_roots).1
  = Fulfilled (VTicket {| id := 2; title := "A"; isCompleted := false;
                          parentId := Some 1%N |}) ∧
  findByPk 1 (addChildrenToTicket 1 [2]%N three_roots).2
  = Some {| id := 1; title := "Epic"; isCompleted := false; parentId := None |} ∧
  (addChildrenToTicket 1 [2]%N three_roots).1
  ≠ Fulfilled (VTicket {| id := 1; title := "Epic"; isCompleted := false;
                          parentId := None |}).
Proof. split_and!; by vm_compute. Qed.

(** ** Titles *)

(** C9, as the code has it: no resolver checks the title.  Creating a
    ticket with an empty title is fulfilled with a new root level ticket
    that has the empty title and is stored; updating the title of an
    existing ticket to the empty string is fulfilled with the ticket so
    changed, which is stored; [updateTicket] is rejected with 'Ticket not
    found', leaving the store, when the id is absent. *)
Theorem C9_empty_title_is_accepted :
  (∀ isCompleted st,
     ∃ t, (createTicket "" isCompleted st).1 = Fulfilled (VTicket t) ∧
          title t = "" ∧ parentId t = None ∧
          findByPk (id t) (createTicket "" isCompleted st).2 = Some t) ∧
  (∀ i st t, findByPk i st = Some t →
     (updateTicket i "" st).1 = Fulfilled (VTicket (set_ticket (Title "") t)) ∧
     findByPk i (updateTicket i "" st).2 = Some (set_ticket (Title "") t)) ∧
  (∀ i title st, findByPk i st = None →
     updateTicket i title st = (Rejected TicketNotFound, st)).
Proof.
  split_and!.
  - intros ic st. exists (create "" ic st).1. split_and!; try done.
    change (findByPk (nextId st) (create "" ic st).2 = Some (create "" ic st).1).
    by rewrite findByPk_create, decide_True.
  - intros i st t Ht. unfold updateTicket. rewrite Ht.
    change (Fulfilled (VTicket (update t (Title "") st).1)
            = Fulfilled (VTicket (set_ticket (Title "") t)) ∧
            findByPk i (update t (Title "") st).2 = Some (set_ticket (Title "") t)).
    split; [done|]. pose proof (findByPk_id _ _ _ Ht) as <-.
    by apply findByPk_update_eq.
  - intros i s st Hn. unfold updateTicket. by rewrite Hn.
Qed.

Lemma C9_empty_title_witness :
  findByPk 2 three_roots
  = Some {| id := 2; title := "A"; isCompleted := false; parentId := None |} ∧
  findByPk 2 (updateTicket 2 "" three_roots).2
  = Some {| id := 2; title := ""; isCompleted := false; parentId := None |} ∧
  findByPk 9 three_roots = None ∧
  updateTicket 9 "T" three_roots = (Rejected TicketNotFound, three_roots).
Proof.
  destruct C9_empty_title_is_accepted as (_ & Hupd & Habs).
  assert (findByPk 2 three_roots
          = Some {| id := 2; title := "A"; isCompleted := false; parentId := None |})
    as Ht by (by vm_compute).
  assert (findByPk 9 three_roots = None) as Hn by (by vm_compute).
  split_and!; [exact Ht| |exact Hn|].
  - exact (proj2 (Hupd 2%N three_roots _ Ht)).
  - exact (Habs 9%N "T" three_roots Hn).
Defined.

(** C9 fails on the code: [createTicket] with the empty title on the
    empty store is fulfilled and the ticket is created, and [updateTicket]
    with the empty title is fulfilled and changes the stored ticket. *)
Lemma C9_counterexample :
  (createTicket "" None TicketStore.empty).1
  = Fulfilled (VTicket {| id := 1; title := ""; isCompleted := false;
                          parentId := None |}) ∧
  findByPk 1 (createTicket "" None TicketStore.empty).2
  = Some {| id := 1; title := ""; isCompleted := false; parentId := None |} ∧
  findByPk 2 three_roots
  = Some {| id := 2; title := "A"; isCompleted := false; parentId := None |} ∧
  (updateTicket 2 "" three_roots).1
  = Fulfilled (VTicket {| id := 2; title := ""; isCompleted := false;
                          parentId := None |}) ∧
  findByPk 2 (updateTicket 2 "" three_roots).2
  = Some {| id := 2; title := ""; isCompleted := false; parentId := None |}.
Proof. split_and!; by vm_compute. Qed.

(** ** What [updateTicket] and [toggleTicket] leave alone *)

(** C10: on an existing ticket, [updateTicket] is fulfilled with the
    stored ticket in which the title is the given one and the id, the
    parent and the completion flag are as before; [toggleTicket] is
    fulfilled with the stored ticket in which the completion flag is the
    given one and the id, the parent and the title are as before; each
    leaves every other ticket of the store as it was. *)
Theorem C10_update_and_toggle_frame (i : ID) (st : Store) (t : Ticket) :
  findByPk i st = Some t →
  (∀ s, ∃ t', (updateTicket i s st).1 = Fulfilled (VTicket t') ∧
              findByPk i (updateTicket i s st).2 = Some t' ∧
              title t' = s ∧ id t' = id t ∧ parentId t' = parentId t ∧
              isCompleted t' = isCompleted t ∧
              ∀ k, k ≠ i → findByPk k (updateTicket i s st).2 = findByPk k st) ∧
  (∀ b, ∃ t', (toggleTicket i b st).1 = Fulfilled (VTicket t') ∧
              findByPk i (toggleTicket i b st).2 = Some t' ∧
              isCompleted t' = b ∧ id t' = id t ∧ parentId t' = parentId t ∧
              title t' = title t ∧
              ∀ k, k ≠ i → findByPk k (toggleTicket i b st).2 = findByPk k st).
Proof.
  intros Ht. pose proof (findByPk_id _ _ _ Ht) as Hi. split.
  - intros s. exists (set_ticket (Title s) t).
    unfold updateTicket. rewrite Ht.
    split_and!; try done.
    + change (findByPk i (update t (Title s) st).2 = Some (set_ticket (Title s) t)).
      rewrite <- Hi. apply findByPk_update_eq. by rewrite Hi.
    + intros k Hk.
      change (findByPk k (update t (Title s) st).2 = findByPk k st).
      apply findByPk_update_ne. by rewrite Hi.
  - intros b. exists (set_ticket (IsCompleted b) t).
    unfold toggleTicket. rewrite Ht.
    split_and!; try done.
    + change (findByPk i (update t (IsCompleted b) st).2
              = Some (set_ticket (IsCompleted b) t)).
      rewrite <- Hi. apply findByPk_update_eq. by rewrite Hi.
    + intros k Hk.
      change (findByPk k (update t (IsCompleted b) st).2 = findByPk k st).
      apply findByPk_update_ne. by rewrite Hi.
Qed.

Lemma C10_update_and_toggle_witness :
  findByPk 2 one_child
  = Some {| id := 2; title := "A"; isCompleted := false; parentId := Some 1%N |} ∧
  (∃ t', findByPk 2 (updateTicket 2 "New" one_child).2 = Some t' ∧
         parentId t' = Some 1%N ∧ isCompleted t' = false) ∧
  (∃ t', findByPk 2 (toggleTicket 2 true one_child).2 = Some t' ∧
         parentId t' = Some 1%N ∧ title t' = "A").
Proof.
  assert (findByPk 2 one_child
          = Some {| id := 2; title := "A"; isCompleted := false; parentId := Some 1%N |})
    as Ht by (by vm_compute).
  destruct (C10_update_and_toggle_frame 2%N one_child _ Ht) as [Hu Hg].
  split_and!; [exact Ht| |].
  - destruct (Hu "New") as (t' & _ & Hs & _ & _ & Hp & Hc & _). by exists t'.
  - destruct (Hg true) as (t' & _ & Hs & _ & _ & Hp & Hc & _). by exists t'.
Defined.

(** ** Removing a ticket *)

Lemma removeTicket_found i st t :
  findByPk i st = Some t →
  removeTicket i st = (Fulfilled (VBool true), destroy t st) ∧
  findByPk i (destroy t st) = None.
Proof.
  intros Ht. unfold removeTicket. rewrite Ht. split; [done|].
  rewrite findByPk_destroy, decide_True; [done|].
  by rewrite (findByPk_id _ _ _ Ht).
Qed.

Lemma removeTicket_absent i st :
  findByPk i st = None → removeTicket i st = (Fulfilled (VBool false), st).
Proof. intros Hn. unfold removeTicket. by rewrite Hn. Qed.

(** C5: when [removeTicket id] has answered [true], the ticket [id] is
    gone, every ticket of the store whose [parentId] was [id] has
    [parentId] null and is in the answer of the roots query [tickets],
    and every ticket other than [id] that was in the store is still in
    it, with its id, title and completion flag. *)
Theorem C5_removeTicket_orphans_children (i : ID) (st : Store) :
  (removeTicket i st).1 = Fulfilled (VBool true) →
  let st' := (removeTicket i st).2 in
  findByPk i st' = None ∧
  (∀ c t', findByPk c st' = Some t' → parentOf st c = Some i →
           parentId t' = None ∧
           ∃ ts, (tickets st').1 = Fulfilled (VArray ts) ∧ t' ∈ ts) ∧
  (∀ c t, c ≠ i → findByPk c st = Some t →
          ∃ t', findByPk c st' = Some t' ∧ id t' = id t ∧ title t' = title t ∧
                isCompleted t' = isCompleted t).
Proof.
  intros Htrue st'. destruct (findByPk i st) as [t|] eqn:Ht.
  2: { rewrite removeTicket_absent in Htrue by done. discriminate Htrue. }
  destruct (removeTicket_found _ _ _ Ht) as [Hrm Hgone].
  assert (st' = destroy t st) as -> by (unfold st'; by rewrite Hrm).
  pose proof (findByPk_id _ _ _ Ht) as Hi.
  split_and!; [done| |].
  - intros c t' Hc Hpar. rewrite findByPk_destroy, Hi in Hc.
    case_decide as Hci; [done|].
    unfold parentOf in Hpar. destruct (findByPk c st) as [tc|] eqn:Htc; [|done].
    cbn in Hpar, Hc. rewrite decide_True in Hc by done. injection Hc as <-.
    split; [done|]. eexists. split; [done|].
    apply elem_of_findAll_parentId. split; [|done]. cbn [id set_ticket].
    pose proof (findByPk_id _ _ _ Htc) as Hidc.
    rewrite findByPk_destroy, Hi, Hidc, decide_False, Htc by done.
    cbn. by rewrite decide_True, Hidc.
  - intros c tc Hci Htc. rewrite findByPk_destroy, Hi, decide_False, Htc by done.
    eexists. split; [done|]. cbn. by case_decide.
Qed.

Lemma C5_removeTicket_witness :
  (removeTicket 1 one_child).1 = Fulfilled (VBool true) ∧
  findByPk 2 one_child
  = Some {| id := 2; title := "A"; isCompleted := false; parentId := Some 1%N |} ∧
  findByPk 2 (removeTicket 1 one_child).2
  = Some {| id := 2; title := "A"; isCompleted := false; parentId := None |} ∧
  ∃ ts, (tickets (removeTicket 1 one_child).2).1 = Fulfilled (VArray ts) ∧
        {| id := 2; title := "A"; isCompleted := false; parentId := None |} ∈ ts.
Proof.
  assert ((removeTicket 1 one_child).1 = Fulfilled (VBool true)) as Htrue
    by (by vm_compute).
  assert (findByPk 2 (removeTicket 1 one_child).2
          = Some {| id := 2; title := "A"; isCompleted := false; parentId := None |})
    as Hc by (by vm_compute).
  destruct (C5_removeTicket_orphans_children 1%N one_child Htrue) as (_ & Horph & _).
  split_and!; [exact Htrue|by vm_compute|exact Hc|].
  apply (Horph 2%N _ Hc). by vm_compute.
Defined.

(** ** A ticket that is not found *)

(** C4, evaluated on the code: [removeTicket] answers [true] for the
    existing ticket 1, which is then gone, and [false] for the missing
    id 9, leaving the store; but [setParentOfTicket] and
    [removeParentFromTicket] answer [false] for the missing id 9 as well,
    where [updateTicket] and [toggleTicket] raise 'Ticket not found'. *)
Theorem C4_not_found_as_false :
  (removeTicket 1 three_roots).1 = Fulfilled (VBool true) ∧
  findByPk 1 (removeTicket 1 three_roots).2 = None ∧
  findByPk 9 three_roots = None ∧
  removeTicket 9 three_roots = (Fulfilled (VBool false), three_roots) ∧
  setParentOfTicket 1 9 three_roots = (Fulfilled (VBool false), three_roots) ∧
  removeParentFromTicket 9 three_roots = (Fulfilled (VBool false), three_roots) ∧
  updateTicket 9 "T" three_roots = (Rejected TicketNotFound, three_roots) ∧
  toggleTicket 9 true three_roots = (Rejected TicketNotFound, three_roots).
Proof. split_and!; by vm_compute. Qed.

(** [removeParentFromTicket] on an existing ticket: it is fulfilled with
    the ticket without a parent, which is stored and is in the answer of
    the roots query. *)
Lemma removeParentFromTicket_found i st t :
  findByPk i st = Some t →
  let t' := set_ticket (ParentId None) t in
  (removeParentFromTicket i st).1 = Fulfilled (VTicket t') ∧
  findByPk i (removeParentFromTicket i st).2 = Some t' ∧
  ∃ ts, (tickets (removeParentFromTicket i st).2).1 = Fulfilled (VArray ts) ∧ t' ∈ ts.
Proof.
  intros Ht t'. pose proof (findByPk_id _ _ _ Ht) as Hi.
  unfold removeParentFromTicket. rewrite Ht.
  change ((Fulfilled (VTicket (update t (ParentId None) st).1) = Fulfilled (VTicket t')) ∧
          findByPk i (update t (ParentId None) st).2 = Some t' ∧
          ∃ ts, Fulfilled (VArray (findAll_parentId None (update t (ParentId None) st).2))
                = Fulfilled (VArray ts) ∧ t' ∈ ts).
  assert (findByPk i (update t (ParentId None) st).2 = Some t') as Hst.
  { rewrite <- Hi. apply findByPk_update_eq. by rewrite Hi. }
  split_and!; [done|done|]. eexists. split; [done|].
  apply elem_of_findAll_parentId. split; [|done].
  subst t'. rewrite id_set_ticket, Hi. exact Hst.
Qed.

(** C7, evaluated on the code: for the id 9 of no ticket,
    [removeParentFromTicket] is not rejected: it answers the boolean
    [false], where [updateTicket] and [toggleTicket] raise 'Ticket not
    found'.  On the existing ticket 2, a child of ticket 1, the parent is
    set to null and the ticket is in the answer of the roots query. *)
Theorem C7_removeParentFromTicket_absent :
  findByPk 9 one_child = None ∧
  removeParentFromTicket 9 one_child = (Fulfilled (VBool false), one_child) ∧
  updateTicket 9 "T" one_child = (Rejected TicketNotFound, one_child) ∧
  toggleTicket 9 true one_child = (Rejected TicketNotFound, one_child) ∧
  (removeParentFromTicket 2 one_child).1
  = Fulfilled (VTicket {| id := 2; title := "A"; isCompleted := false;
                          parentId := None |}) ∧
  ∃ ts, (tickets (removeParentFromTicket 2 one_child).2).1 = Fulfilled (VArray ts) ∧
        {| id := 2; title := "A"; isCompleted := false; parentId := None |} ∈ ts.
Proof.
  split_and!; try (by vm_compute).
  destruct (removeParentFromTicket_found 2%N one_child
              {| id := 2; title := "A"; isCompleted := false; parentId := Some 1%N |})
    as (_ & _ & Hroots); [by vm_compute|].
  exact Hroots.
Qed.

(** ** The store after each resolver *)

Section Stores.

Implicit Types (st : Store) (t : Ticket) (i k p c : ID).

(** Two stores that answer every lookup alike, with the same counter,
    are equal. *)
Lemma Store_ext st1 st2 :
  (∀ k, findByPk k st1 = findByPk k st2) → nextId st1 = nextId st2 → st1 = st2.
Proof.
  intros Hk Hn. apply Store_eq; [|done]. apply map_eq. intros k.
  specialize (Hk k). unfold findByPk in Hk.
  destruct (rows st1 !! k) as [[s1 b1 p1]|], (rows st2 !! k) as [[s2 b2 p2]|];
    cbn in Hk; try done.
  by injection Hk as -> -> ->.
Qed.

Lemma createTicket_store s ic st : (createTicket s ic st).2 = (create s ic st).2.
Proof. done. Qed.

Lemma updateTicket_store i s st :
  (updateTicket i s st).2 =
    match findByPk i st with Some t => (update t (Title s) st).2 | None => st end.
Proof. unfold updateTicket. by destruct (findByPk i st). Qed.

Lemma toggleTicket_store i b st :
  (toggleTicket i b st).2 =
    match findByPk i st with Some t => (update t (IsCompleted b) st).2 | None => st end.
Proof. unfold toggleTicket. by destruct (findByPk i st). Qed.

Lemma removeTicket_store i st :
  (removeTicket i st).2 =
    match findByPk i st with Some t => destroy t st | None => st end.
Proof. unfold removeTicket. by destruct (findByPk i st). Qed.

Lemma setParentOfTicket_store p c st :
  (setParentOfTicket p c st).2 = reparent p (findByPk c st) st.
Proof. unfold setParentOfTicket. by destruct (findByPk c st). Qed.

Lemma removeParentFromTicket_store i st :
  (removeParentFromTicket i st).2 =
    match findByPk i st with Some t => (update t (ParentId None) st).2 | None => st end.
Proof. unfold removeParentFromTicket. by destruct (findByPk i st). Qed.

(** The promise of [addChildrenToTicket] is settled by a child only:
    with a ticket, or with the error of a missing child. *)
Lemma addChild_fold_promise p st0 cs acc :
  (acc.1 = Pending ∨ (∃ t, acc.1 = Fulfilled (VTicket t)) ∨
   (∃ c, acc.1 = Rejected (ChildrenTicketDoesNotExist c))) →
  let pr := (foldl (λ a c, addChild p c (findByPk c st0) a) acc cs).1 in
  pr = Pending ∨ (∃ t, pr = Fulfilled (VTicket t)) ∨
  (∃ c, pr = Rejected (ChildrenTicketDoesNotExist c)).
Proof.
  revert acc. induction cs as [|c cs IH]; intros acc Hacc; [done|].
  cbn [foldl]. apply IH. unfold addChild.
  destruct (findByPk c st0) as [t|]; cbn;
    destruct Hacc as [->|[[t' ->]|[c' ->]]]; cbn; eauto.
Qed.

(** [Promise.all] over the children is rejected by a missing child only. *)
Lemma Promise_all_rejected p st cs e :
  Promise_all (childPromise p st <$> cs) = inl e →
  ∃ c, c ∈ cs ∧ findByPk c st = None ∧ e = ChildrenTicketDoesNotExist c.
Proof.
  induction cs as [|c cs IH]; cbn; [done|].
  unfold childPromise at 1. destruct (findByPk c st) as [t|] eqn:Hc.
  - destruct (Promise_all _) as [e'|ts] eqn:Hall; [|done].
    intros [= ->]. destruct IH as (c' & Hin & Hn & He); [done|].
    exists c'. split_and!; [by right|done|done].
  - intros [= <-]. exists c. split_and!; [left|done|done].
Qed.

End Stores.

(** ** A ticket that is not found: the store is left alone *)

(** X1: whenever a mutation answers that a ticket was not found, by
    'Ticket not found', by 'Parent ticket not found' or by the boolean
    [false], it has not changed the store. *)
Theorem not_found_leaves_store (m : Mutation) (st : Store) :
  not_found_answer (run m st).1 → (run m st).2 = st.
Proof.
  unfold not_found_answer.
  destruct m as [s ic|i s|i b|i|p cs|p cs|p c|i]; cbn [run].
  - intros [H|[H|H]]; discriminate H.
  - unfold updateTicket. destruct (findByPk i st); [|done].
    intros [H|[H|H]]; discriminate H.
  - unfold toggleTicket. destruct (findByPk i st); [|done].
    intros [H|[H|H]]; discriminate H.
  - unfold removeTicket. destruct (findByPk i st); [|done].
    intros [H|[H|H]]; discriminate H.
  - unfold addChildrenToTicket. destruct (findByPk p st) as [tp|]; [|done].
    intros Hnf.
    destruct (addChild_fold_promise p st cs (Pending, st)) as [Hp|[[t Hp]|[c Hp]]];
      [by left| | |]; rewrite Hp in Hnf; destruct Hnf as [H|[H|H]]; discriminate H.
  - destruct (findByPk p st) as [tp|] eqn:Hp.
    + rewrite addChildrenToTicketReturningArray_result by (by rewrite Hp).
      destruct (Promise_all _) as [e|ts] eqn:Hall.
      * apply Promise_all_rejected in Hall as (c & _ & _ & ->).
        intros [H|[H|H]]; discriminate H.
      * intros [H|[H|H]]; discriminate H.
    + unfold addChildrenToTicketReturningArray. by rewrite Hp.
  - unfold setParentOfTicket. destruct (findByPk c st); [|done].
    intros [H|[H|H]]; discriminate H.
  - unfold removeParentFromTicket. destruct (findByPk i st); [|done].
    intros [H|[H|H]]; discriminate H.
Qed.

Lemma not_found_leaves_store_witness :
  not_found_answer (run (SetParentOfTicket 1 9) three_roots).1 ∧
  (run (SetParentOfTicket 1 9) three_roots).2 = three_roots.
Proof.
  assert (not_found_answer (run (SetParentOfTicket 1 9) three_roots).1) as Hnf
    by (right; right; by vm_compute).
  split; [exact Hnf|].
  exact (not_found_leaves_store (SetParentOfTicket 1 9) three_roots Hnf).
Defined.

(** ** Which tickets and which fields a mutation touches *)

(** What any mutation but [createTicket] does to the ticket stored under
    an id: an absent ticket stays absent; a present one is deleted by
    [removeTicket] of that id only, and otherwise keeps its id, its title
    unless the mutation is [updateTicket] of that id, and its completion
    flag unless the mutation is [toggleTicket] of that id. *)
Lemma run_findByPk m st k :
  not_create m →
  match findByPk k st with
  | None => findByPk k (run m st).2 = None
  | Some t =>
      (m = RemoveTicket k ∧ findByPk k (run m st).2 = None) ∨
      ∃ t', findByPk k (run m st).2 = Some t' ∧ id t' = id t ∧
            (title t' = title t ∨ ∃ s, m = UpdateTicket k s) ∧
            (isCompleted t' = isCompleted t ∨ ∃ b, m = ToggleTicket k b)
  end.
Proof.
  assert (∀ o : option Ticket,
            (∀ t, o = Some t → id t = k) →
            ∀ f : Ticket → Ticket,
            (∀ t, id (f t) = id t ∧ title (f t) = title t ∧
                  isCompleted (f t) = isCompleted t) →
            match o with
            | None => f <$> o = None
            | Some t =>
                (m = RemoveTicket k ∧ f <$> o = None) ∨
                ∃ t', f <$> o = Some t' ∧ id t' = id t ∧
                      (title t' = title t ∨ ∃ s, m = UpdateTicket k s) ∧
                      (isCompleted t' = isCompleted t ∨ ∃ b, m = ToggleTicket k b)
            end) as Hkeep.
  { intros [t|] _ f Hf; [|done]. right. exists (f t).
    destruct (Hf t) as (? & ? & ?). split_and!; [done|done|by left|by left]. }
  assert (match findByPk k st with
          | None => findByPk k st = None
          | Some t =>
              (m = RemoveTicket k ∧ findByPk k st = None) ∨
              ∃ t', findByPk k st = Some t' ∧ id t' = id t ∧
                    (title t' = title t ∨ ∃ s, m = UpdateTicket k s) ∧
                    (isCompleted t' = isCompleted t ∨ ∃ b, m = ToggleTicket k b)
          end) as Hsame.
  { destruct (findByPk k st) as [t|]; [|done]. right. exists t.
    split_and!; [done|done|by left|by left]. }
  pose proof (findByPk_id k st) as Hid.
  destruct m as [s ic|i s|i b|i|p cs|p cs|p c|i]; cbn [run]; intros Hnc; [done|..].
  - rewrite updateTicket_store. destruct (findByPk i st) as [ti|] eqn:Hi; [|done].
    rewrite findByPk_update, (findByPk_id _ _ _ Hi). case_decide as Hki; [|done].
    subst i. rewrite Hi. right. eexists. split_and!; [done|done|right; eauto|by left].
  - rewrite toggleTicket_store. destruct (findByPk i st) as [ti|] eqn:Hi; [|done].
    rewrite findByPk_update, (findByPk_id _ _ _ Hi). case_decide as Hki; [|done].
    subst i. rewrite Hi. right. eexists. split_and!; [done|done|by left|right; eauto].
  - rewrite removeTicket_store. destruct (findByPk i st) as [ti|] eqn:Hi; [|done].
    rewrite findByPk_destroy, (findByPk_id _ _ _ Hi). case_decide as Hki.
    + subst i. rewrite Hi. by left.
    + apply Hkeep; [done|]. intros t. by case_decide.
  - rewrite addChildrenToTicket_store. destruct (findByPk p st); [|done].
    rewrite findByPk_reparentAll. case_decide; [|done]. by apply Hkeep.
  - rewrite addChildrenToTicketReturningArray_store. destruct (findByPk p st); [|done].
    rewrite findByPk_reparentAll. case_decide; [|done]. by apply Hkeep.
  - rewrite setParentOfTicket_store. unfold reparent.
    destruct (findByPk c st) as [tc|] eqn:Hc; [|done].
    rewrite findByPk_update. case_decide; [|done]. by apply Hkeep.
  - rewrite removeParentFromTicket_store. destruct (findByPk i st) as [ti|] eqn:Hi; [|done].
    rewrite findByPk_update. case_decide; [|done]. by apply Hkeep.
Qed.

(** X2: only [createTicket] adds a ticket and only [removeTicket]
    deletes one: after any other mutation, whatever it answers, the store
    has a ticket under an id exactly when it had one before. *)
Theorem only_create_and_remove_change_the_tickets (m : Mutation) (st : Store) (k : ID) :
  keeps_tickets m →
  is_Some (findByPk k (run m st).2) ↔ is_Some (findByPk k st).
Proof.
  intros Hm. assert (not_create m) as Hnc by (by destruct m).
  pose proof (run_findByPk m st k Hnc) as H.
  destruct (findByPk k st) as [t|].
  - destruct H as [[-> _]|(t' & -> & _)]; [done|]. split; eauto.
  - by rewrite H.
Qed.

Lemma only_create_and_remove_witness :
  keeps_tickets (AddChildrenToTicket 1 [2; 99]%N) ∧
  (is_Some (findByPk 99 (run (AddChildrenToTicket 1 [2; 99]%N) three_roots).2)
   ↔ is_Some (findByPk 99 three_roots)).
Proof.
  split; [exact I|].
  exact (only_create_and_remove_change_the_tickets
           (AddChildrenToTicket 1 [2; 99]%N) three_roots 99%N I).
Defined.

(** X3: the title of a ticket is changed by [updateTicket] of that
    ticket only, and its completion flag by [toggleTicket] of that ticket
    only: a ticket that is in the store before and after any other
    mutation than [createTicket] has the same id, and the same title and
    flag but for these two. *)
Theorem title_and_flag_frame (m : Mutation) (st : Store) (k : ID) (t t' : Ticket) :
  not_create m →
  findByPk k st = Some t → findByPk k (run m st).2 = Some t' →
  id t' = id t ∧
  (title t' = title t ∨ ∃ s, m = UpdateTicket k s) ∧
  (isCompleted t' = isCompleted t ∨ ∃ b, m = ToggleTicket k b).
Proof.
  intros Hnc Ht Ht'. pose proof (run_findByPk m st k Hnc) as H.
  rewrite Ht, Ht' in H. destruct H as [[_ H]|(t'' & [= <-] & H)]; done.
Qed.

Lemma title_and_flag_frame_witness :
  findByPk 2 three_roots
  = Some {| id := 2; title := "A"; isCompleted := false; parentId := None |} ∧
  findByPk 2 (run (SetParentOfTicket 1 2) three_roots).2
  = Some {| id := 2; title := "A"; isCompleted := false; parentId := Some 1%N |} ∧
  (title {| id := 2; title := "A"; isCompleted := false; parentId := Some 1%N |} = "A"
   ∨ ∃ s, SetParentOfTicket 1 2 = UpdateTicket 2 s).
Proof.
  assert (findByPk 2 three_roots
          = Some {| id := 2; title := "A"; isCompleted := false; parentId := None |})
    as Ht by (by vm_compute).
  assert (findByPk 2 (run (SetParentOfTicket 1 2) three_roots).2
          = Some {| id := 2; title := "A"; isCompleted := false; parentId := Some 1%N |})
    as Ht' by (by vm_compute).
  split_and!; [exact Ht|exact Ht'|].
  exact (proj1 (proj2 (title_and_flag_frame (SetParentOfTicket 1 2) three_roots 2%N
                         _ _ I Ht Ht'))).
Defined.

(** ** The bulk reassignment and the single one *)

(** X4: the store left by [addChildrenToTicket] and by
    [addChildrenToTicketReturningArray] depends on the set of the listed
    ids only: two lists with the same members, in any order and with any
    repetitions, leave the same store. *)
Theorem addChildren_store_by_members (p : ID) (cs cs' : list ID) (st : Store) :
  (∀ c, c ∈ cs ↔ c ∈ cs') →
  (addChildrenToTicket p cs st).2 = (addChildrenToTicket p cs' st).2 ∧
  (addChildrenToTicketReturningArray p cs st).2
  = (addChildrenToTicketReturningArray p cs' st).2.
Proof.
  intros Hcs.
  rewrite !addChildrenToTicket_store, !addChildrenToTicketReturningArray_store.
  destruct (findByPk p st); [|done].
  assert (reparentAll p st cs st = reparentAll p st cs' st) as ->; [|done].
  apply Store_ext; [|by rewrite !nextId_reparentAll].
  intros k. rewrite !findByPk_reparentAll. apply decide_ext. by rewrite Hcs.
Qed.

Lemma addChildren_store_by_members_witness :
  (∀ c : ID, c ∈ [2; 3; 2]%N ↔ c ∈ [3; 2]%N) ∧
  (addChildrenToTicket 1 [2; 3; 2]%N three_roots).2
  = (addChildrenToTicket 1 [3; 2]%N three_roots).2.
Proof.
  assert (∀ c : ID, c ∈ [2; 3; 2]%N ↔ c ∈ [3; 2]%N) as Hm.
  { intros c. rewrite !elem_of_cons, !elem_of_nil. tauto. }
  split; [exact Hm|].
  exact (proj1 (addChildren_store_by_members 1%N _ _ three_roots Hm)).
Defined.

(** One callback of the bulk reassignment and [setParentOfTicket] write
    the same record, whatever ticket of that id was looked up. *)
Lemma reparent_same_id p (o o' : option Ticket) st :
  (is_Some o ↔ is_Some o') →
  (∀ t t', o = Some t → o' = Some t' → id t = id t') →
  reparent p o st = reparent p o' st.
Proof.
  intros Hex Hid. destruct o as [t|], o' as [t'|]; cbn.
  - unfold update. cbn. by rewrite (Hid t t').
  - destruct Hex as [[? ?] _]; [by eexists|done].
  - destruct Hex as [_ [? ?]]; [by eexists|done].
  - done.
Qed.

Lemma is_Some_findByPk_reparent p o st k :
  is_Some (findByPk k (reparent p o st)) ↔ is_Some (findByPk k st).
Proof.
  destruct o as [t|]; cbn [reparent]; [|done].
  rewrite findByPk_update. case_decide; [|done]. by rewrite fmap_is_Some.
Qed.

Lemma reparentAll_setParentOfTicket p st0 cs st :
  (∀ k, is_Some (findByPk k st0) ↔ is_Some (findByPk k st)) →
  reparentAll p st0 cs st = runs (SetParentOfTicket p <$> cs) st.
Proof.
  revert st. induction cs as [|c cs IH]; intros st Hex; [done|].
  cbn. rewrite setParentOfTicket_store.
  rewrite (reparent_same_id p (findByPk c st0) (findByPk c st) st).
  - apply IH. intros k. by rewrite is_Some_findByPk_reparent.
  - apply Hex.
  - intros t t' Ht Ht'.
    by rewrite (findByPk_id _ _ _ Ht), (findByPk_id _ _ _ Ht').
Qed.

(** X5: for an existing parent, [addChildrenToTicket] and
    [addChildrenToTicketReturningArray] leave the store that
    [setParentOfTicket] for each listed id in turn leaves. *)
Theorem addChildren_is_setParent_for_each (p : ID) (cs : list ID) (st : Store) :
  is_Some (findByPk p st) →
  (addChildrenToTicket p cs st).2 = runs (SetParentOfTicket p <$> cs) st ∧
  (addChildrenToTicketReturningArray p cs st).2 = runs (SetParentOfTicket p <$> cs) st.
Proof.
  intros [tp Hp].
  rewrite addChildrenToTicket_store, addChildrenToTicketReturningArray_store, Hp.
  by rewrite reparentAll_setParentOfTicket.
Qed.

Lemma addChildren_is_setParent_witness :
  is_Some (findByPk 1 three_roots) ∧
  (addChildrenToTicket 1 [2; 99; 3]%N three_roots).2
  = runs [SetParentOfTicket 1 2; SetParentOfTicket 1 99; SetParentOfTicket 1 3]
         three_roots.
Proof.
  assert (is_Some (findByPk 1 three_roots)) as Hp by (eexists; by vm_compute).
  split; [exact Hp|].
  exact (proj1 (addChildren_is_setParent_for_each 1%N [2; 99; 3]%N three_roots Hp)).
Defined.

(** X6: after [addChildrenToTicket] on an existing parent, the children
    that the [children] resolver answers for the parent are the tickets
    that were its children before and the listed tickets that exist. *)
Theorem children_after_addChildren (p : ID) (cs : list ID) (st : Store) (tp : Ticket) :
  findByPk p st = Some tp →
  ∃ ts, (children tp (addChildrenToTicket p cs st).2).1 = Fulfilled (VArray ts) ∧
        ∀ k, (∃ t, t ∈ ts ∧ id t = k) ↔
             is_Some (findByPk k st) ∧ (k ∈ cs ∨ parentOf st k = Some p).
Proof.
  intros Hp. eexists. split; [done|]. intros k.
  rewrite addChildrenToTicket_store, Hp. unfold getChildren.
  rewrite (findByPk_id _ _ _ Hp). split.
  - intros (t & [Ht Hpar]%elem_of_findAll_parentId & <-).
    rewrite findByPk_reparentAll in Ht. unfold parentOf.
    destruct (findByPk (id t) st) as [t0|] eqn:Ht0;
      [|by case_decide]. split; [by eexists|].
    case_decide as Hd; [left; by destruct Hd|right].
    injection Ht as <-. done.
  - intros [[t0 Ht0] Hor].
    assert (id t0 = k) as Hk by (by apply (findByPk_id _ st)).
    exists (set_ticket (ParentId (Some p)) t0). split; [|by rewrite id_set_ticket].
    apply elem_of_findAll_parentId. split; [|done].
    rewrite id_set_ticket, Hk, findByPk_reparentAll, Ht0. cbn.
    case_decide as Hd; [done|]. destruct Hor as [Hin|Hpar].
    + destruct Hd. split; [done|by eexists].
    + unfold parentOf in Hpar. rewrite Ht0 in Hpar. cbn in Hpar.
      f_equal. destruct t0; cbn in *. by subst.
Qed.

Lemma children_after_addChildren_witness :
  findByPk 1 one_child
  = Some {| id := 1; title := "Epic"; isCompleted := false; parentId := None |} ∧
  ∃ ts, (children {| id := 1; title := "Epic"; isCompleted := false; parentId := None |}
                  (addChildrenToTicket 1 [3; 99]%N one_child).2).1
        = Fulfilled (VArray ts) ∧
        (∃ t, t ∈ ts ∧ id t = 2%N) ∧ (∃ t, t ∈ ts ∧ id t = 3%N) ∧
        ¬ (∃ t, t ∈ ts ∧ id t = 99%N).
Proof.
  assert (findByPk 1 one_child
          = Some {| id := 1; title := "Epic"; isCompleted := false; parentId := None |})
    as Hp by (by vm_compute).
  split; [exact Hp|].
  destruct (children_after_addChildren 1%N [3; 99]%N one_child _ Hp) as (ts & Hts & Hk).
  exists ts. split_and!; [exact Hts| | |].
  - apply Hk. split; [eexists; by vm_compute|right; by vm_compute].
  - apply Hk. split; [eexists; by vm_compute|left; left].
  - intros [[t Ht] _]%Hk. vm_compute in Ht. done.
Defined.

(** ** Single writes *)

Section Writes.

Implicit Types (st : Store) (t : Ticket) (i k p c : ID) (v : Values).

Lemma findByPk_write k i v st :
  findByPk k (write i v st) =
    if decide (k = i) then set_ticket v <$> findByPk k st else findByPk k st.
Proof.
  unfold write. destruct (findByPk i st) as [t|] eqn:Hi.
  - by rewrite findByPk_update, (findByPk_id _ _ _ Hi).
  - case_decide as Hk; [|done]. subst k. by rewrite Hi.
Qed.

Lemma nextId_write i v st : nextId (write i v st) = nextId st.
Proof. unfold write. by destruct (findByPk i st). Qed.

Lemma updateTicket_write i s st : (updateTicket i s st).2 = write i (Title s) st.
Proof. apply updateTicket_store. Qed.

Lemma toggleTicket_write i b st : (toggleTicket i b st).2 = write i (IsCompleted b) st.
Proof. apply toggleTicket_store. Qed.

Lemma setParentOfTicket_write p c st :
  (setParentOfTicket p c st).2 = write c (ParentId (Some p)) st.
Proof. apply setParentOfTicket_store. Qed.

Lemma removeParentFromTicket_write i st :
  (removeParentFromTicket i st).2 = write i (ParentId None) st.
Proof. apply removeParentFromTicket_store. Qed.

(** A second write of the same field of the same ticket overrides the
    first. *)
Lemma write_write i v1 v2 st :
  (∀ t, set_ticket v2 (set_ticket v1 t) = set_ticket v2 t) →
  write i v2 (write i v1 st) = write i v2 st.
Proof.
  intros Hv. apply Store_ext; [|by rewrite !nextId_write].
  intros k. rewrite !findByPk_write. case_decide; [|done].
  destruct (findByPk k st) as [t|]; cbn; [|done]. by rewrite Hv.
Qed.

(** Writes of different fields, or to different tickets, commute. *)
Lemma write_comm i1 v1 i2 v2 st :
  (∀ t, set_ticket v2 (set_ticket v1 t) = set_ticket v1 (set_ticket v2 t)) →
  write i2 v2 (write i1 v1 st) = write i1 v1 (write i2 v2 st).
Proof.
  intros Hv. apply Store_ext; [|by rewrite !nextId_write].
  intros k. rewrite !findByPk_write.
  repeat case_decide; try done.
  destruct (findByPk k st) as [t|]; cbn; [|done]. by rewrite Hv.
Qed.

End Writes.

(** X7: [setParentOfTicket] moves the child: once it has found the
    child, the child with its new parent is among the children that the
    [children] resolver answers for a ticket of the id [parentId], it is
    among the children of no ticket of another id, and it is not in the
    answer of the roots query [tickets]. *)
Theorem setParentOfTicket_moves_the_child (p c : ID) (st : Store) (t : Ticket) :
  findByPk c st = Some t →
  let st' := (setParentOfTicket p c st).2 in
  (∀ tp, id tp = p →
         ∃ ts, (children tp st').1 = Fulfilled (VArray ts) ∧
               set_ticket (ParentId (Some p)) t ∈ ts) ∧
  (∀ tq ts x, id tq ≠ p → (children tq st').1 = Fulfilled (VArray ts) →
              x ∈ ts → id x ≠ c) ∧
  (∀ ts x, (tickets st').1 = Fulfilled (VArray ts) → x ∈ ts → id x ≠ c).
Proof.
  intros Ht st'. pose proof (findByPk_id _ _ _ Ht) as Hid.
  assert (findByPk c st' = Some (set_ticket (ParentId (Some p)) t)) as Hc.
  { unfold st'. by rewrite setParentOfTicket_write, findByPk_write, decide_True, Ht. }
  split_and!.
  - intros tp Hp. eexists. split; [done|].
    apply elem_of_findAll_parentId. rewrite id_set_ticket, Hid, Hp. by split.
  - intros tq ts x Hq [= <-] [Hx Hpar]%elem_of_findAll_parentId Hxc.
    rewrite Hxc, Hc in Hx. injection Hx as <-. cbn in Hpar. congruence.
  - intros ts x [= <-] [Hx Hpar]%elem_of_findAll_parentId Hxc.
    rewrite Hxc, Hc in Hx. injection Hx as <-. by cbn in Hpar.
Qed.

Lemma setParentOfTicket_moves_witness :
  findByPk 2 one_child
  = Some {| id := 2; title := "A"; isCompleted := false; parentId := Some 1%N |} ∧
  (∃ ts, (children {| id := 3; title := "B"; isCompleted := false; parentId := None |}
                   (setParentOfTicket 3 2 one_child).2).1 = Fulfilled (VArray ts) ∧
         {| id := 2; title := "A"; isCompleted := false; parentId := Some 3%N |} ∈ ts) ∧
  (∀ ts x, (children {| id := 1; title := "Epic"; isCompleted := false;
                        parentId := None |}
                     (setParentOfTicket 3 2 one_child).2).1 = Fulfilled (VArray ts) →
           x ∈ ts → id x ≠ 2%N).
Proof.
  assert (findByPk 2 one_child
          = Some {| id := 2; title := "A"; isCompleted := false; parentId := Some 1%N |})
    as Ht by (by vm_compute).
  destruct (setParentOfTicket_moves_the_child 3%N 2%N one_child _ Ht)
    as (Hin & Hother & _).
  split_and!; [exact Ht| |].
  - exact (Hin {| id := 3; title := "B"; isCompleted := false; parentId := None |}
               eq_refl).
  - intros ts x. by apply Hother.
Defined.

(** X8: [removeParentFromTicket] after [setParentOfTicket] on the same
    ticket leaves the store that [removeParentFromTicket] alone leaves;
    for a root level ticket this is the store before the two. *)
Theorem removeParent_undoes_setParent (p c : ID) (st : Store) :
  (removeParentFromTicket c (setParentOfTicket p c st).2).2
  = (removeParentFromTicket c st).2 ∧
  (∀ t, findByPk c st = Some t → parentId t = None →
        (removeParentFromTicket c (setParentOfTicket p c st).2).2 = st).
Proof.
  assert ((removeParentFromTicket c (setParentOfTicket p c st).2).2
          = (removeParentFromTicket c st).2) as Heq.
  { rewrite !removeParentFromTicket_write, setParentOfTicket_write.
    by apply write_write. }
  split; [done|]. intros t Ht Hroot. rewrite Heq, removeParentFromTicket_write.
  apply Store_ext; [|by rewrite nextId_write].
  intros k. rewrite findByPk_write. case_decide as Hk; [|done].
  subst k. rewrite Ht. cbn. destruct t; cbn in *. by subst.
Qed.

Lemma removeParent_undoes_setParent_witness :
  findByPk 3 one_child
  = Some {| id := 3; title := "B"; isCompleted := false; parentId := None |} ∧
  (removeParentFromTicket 3 (setParentOfTicket 2 3 one_child).2).2 = one_child.
Proof.
  assert (findByPk 3 one_child
          = Some {| id := 3; title := "B"; isCompleted := false; parentId := None |})
    as Ht by (by vm_compute).
  split; [exact Ht|].
  exact (proj2 (removeParent_undoes_setParent 2%N 3%N one_child) _ Ht eq_refl).
Defined.

Lemma updateTicket_result i s st :
  (updateTicket i s st).1 =
    match findByPk i st with
    | Some t => Fulfilled (VTicket (set_ticket (Title s) t))
    | None => Rejected TicketNotFound
    end.
Proof. unfold updateTicket. by destruct (findByPk i st). Qed.

Lemma toggleTicket_result i b st :
  (toggleTicket i b st).1 =
    match findByPk i st with
    | Some t => Fulfilled (VTicket (set_ticket (IsCompleted b) t))
    | None => Rejected TicketNotFound
    end.
Proof. unfold toggleTicket. by destruct (findByPk i st). Qed.

(** X9: the last write wins and the two fields are independent:
    [updateTicket] after an [updateTicket] of the same ticket answers and
    leaves what it does alone, likewise [toggleTicket] after a
    [toggleTicket], and [updateTicket] and [toggleTicket], of the same
    ticket or of two, leave the same store in either order. *)
Theorem last_write_wins (i j : ID) (s1 s2 : string) (b1 b2 : bool) (st : Store) :
  updateTicket i s2 (updateTicket i s1 st).2 = updateTicket i s2 st ∧
  toggleTicket i b2 (toggleTicket i b1 st).2 = toggleTicket i b2 st ∧
  (toggleTicket j b1 (updateTicket i s1 st).2).2
  = (updateTicket i s1 (toggleTicket j b1 st).2).2.
Proof.
  split_and!.
  - rewrite (surjective_pairing (updateTicket i s2 st)).
    rewrite (surjective_pairing (updateTicket i s2 _)). f_equal.
    + rewrite !updateTicket_result, updateTicket_write, findByPk_write, decide_True by done.
      by destruct (findByPk i st).
    + rewrite !updateTicket_write. by apply write_write.
  - rewrite (surjective_pairing (toggleTicket i b2 st)).
    rewrite (surjective_pairing (toggleTicket i b2 _)). f_equal.
    + rewrite !toggleTicket_result, toggleTicket_write, findByPk_write, decide_True by done.
      by destruct (findByPk i st).
    + rewrite !toggleTicket_write. by apply write_write.
  - rewrite !toggleTicket_write, !updateTicket_write. by apply write_comm.
Qed.

(** X10: [removeTicket] of the same id a second time answers [false]
    and leaves the store of the first, in which the [ticket] query
    answers null for that id. *)
Theorem removeTicket_twice (i : ID) (st : Store) :
  let st' := (removeTicket i st).2 in
  removeTicket i st' = (Fulfilled (VBool false), st') ∧
  ticket i st' = (Fulfilled VNull, st').
Proof.
  intros st'. assert (findByPk i st' = None) as Hn.
  { unfold st'. destruct (findByPk i st) as [t|] eqn:Ht.
    - destruct (removeTicket_found _ _ _ Ht) as [-> Hgone]. done.
    - by rewrite removeTicket_absent. }
  split.
  - by apply removeTicket_absent.
  - unfold ticket. by rewrite Hn.
Qed.

(** ** References to existing tickets *)

(** X11: no dangling parent: if every parent reference of the store
    refers to a ticket of the store, this is so after every mutation,
    provided [setParentOfTicket], which does not look the parent up, is
    given the id of an existing ticket. *)
Theorem closed_kept (m : Mutation) (st : Store) :
  closed st → parent_exists m st → closed (run m st).2.
Proof.
  intros Hcl Hpe x q Hx.
  assert (not_create m ∨ ∃ s ic, m = CreateTicket s ic) as [Hnc|(s & ic & ->)]
    by (destruct m; cbn; eauto).
  2: { cbn [run] in *. rewrite createTicket_store in *. unfold parentOf in Hx.
       rewrite findByPk_create in *. case_decide; [done|].
       case_decide; [by eexists|]. by apply (Hcl x). }
  assert (m = RemoveTicket q ∧ is_Some (findByPk q st) ∨
          (is_Some (findByPk q st) → is_Some (findByPk q (run m st).2))) as Hq.
  { pose proof (run_findByPk m st q Hnc) as H.
    destruct (findByPk q st) as [tq|].
    - destruct H as [[-> _]|(t' & -> & _)]; [left|right]; eauto.
    - right. by intros [? ?]. }
  destruct m as [s ic|i s|i b|i|p cs|p cs|p c|i]; cbn [run] in *; [done|..].
  - destruct Hq as [[[=] _]|Hq]. apply Hq, (Hcl x).
    rewrite updateTicket_store in Hx. destruct (findByPk i st); [|done].
    by rewrite parentOf_update_Title in Hx.
  - destruct Hq as [[[=] _]|Hq]. apply Hq, (Hcl x).
    rewrite toggleTicket_store in Hx. destruct (findByPk i st); [|done].
    by rewrite parentOf_update_IsCompleted in Hx.
  - rewrite removeTicket_store in *. destruct (findByPk i st) as [ti|] eqn:Hi.
    2: { by apply (Hcl x). }
    pose proof (findByPk_id _ _ _ Hi) as Hidi.
    unfold parentOf in Hx. rewrite findByPk_destroy, Hidi in Hx.
    case_decide; [done|].
    destruct (findByPk x st) as [tx|] eqn:Htx; [|done]. cbn in Hx.
    case_decide as Hpar; [done|].
    assert (q ≠ i) as Hqi by (intros ->; cbn in Hx; by apply Hpar).
    destruct (Hcl x q) as [tq Htq]; [unfold parentOf; by rewrite Htx|].
    rewrite findByPk_destroy, Hidi, decide_False, Htq by done. by eexists.
  - destruct Hq as [[[=] _]|Hq]. apply Hq.
    rewrite addChildrenToTicket_store in Hx.
    destruct (findByPk p st) as [tp|] eqn:Hp; [|by apply (Hcl x)].
    unfold parentOf in Hx. rewrite findByPk_reparentAll in Hx.
    case_decide; [|by apply (Hcl x)].
    destruct (findByPk x st); [|done]. cbn in Hx. injection Hx as <-.
    rewrite Hp. by eexists.
  - destruct Hq as [[[=] _]|Hq]. apply Hq.
    rewrite addChildrenToTicketReturningArray_store in Hx.
    destruct (findByPk p st) as [tp|] eqn:Hp; [|by apply (Hcl x)].
    unfold parentOf in Hx. rewrite findByPk_reparentAll in Hx.
    case_decide; [|by apply (Hcl x)].
    destruct (findByPk x st); [|done]. cbn in Hx. injection Hx as <-.
    rewrite Hp. by eexists.
  - destruct Hq as [[[=] _]|Hq]. apply Hq.
    rewrite setParentOfTicket_write in Hx.
    unfold parentOf in Hx. rewrite findByPk_write in Hx.
    case_decide; [|by apply (Hcl x)].
    destruct (findByPk x st); [|done]. cbn in Hx. by injection Hx as <-.
  - destruct Hq as [[[=] _]|Hq]. apply Hq.
    rewrite removeParentFromTicket_write in Hx.
    unfold parentOf in Hx. rewrite findByPk_write in Hx.
    case_decide; [|by apply (Hcl x)].
    by destruct (findByPk x st).
Qed.

Lemma closed_empty : closed TicketStore.empty.
Proof. intros x p Hx. by vm_compute in Hx. Qed.

Lemma closed_kept_witness :
  closed one_child ∧ parent_exists (RemoveTicket 1) one_child ∧
  closed (run (RemoveTicket 1) one_child).2.
Proof.
  assert (closed one_child) as Hcl.
  { unfold one_child, three_roots.
    apply (closed_kept (SetParentOfTicket 1 2)); [|eexists; by vm_compute].
    repeat (apply (closed_kept (CreateTicket _ _)); [|exact I]).
    apply closed_empty. }
  split_and!; [exact Hcl|exact I|].
  exact (closed_kept (RemoveTicket 1) one_child Hcl I).
Defined.

(** ** An empty list of children *)

(** X12: for an existing parent, the promise of [addChildrenToTicket]
    stays pending exactly when the list of children is empty, where
    [addChildrenToTicketReturningArray] is fulfilled with the empty
    array; neither changes the store then. *)
Theorem addChildren_of_no_children (p : ID) (cs : list ID) (st : Store) :
  is_Some (findByPk p st) →
  ((addChildrenToTicket p cs st).1 = Pending ↔ cs = []) ∧
  addChildrenToTicket p [] st = (Pending, st) ∧
  addChildrenToTicketReturningArray p [] st = (Fulfilled (VArray []), st).
Proof.
  intros [tp Hp]. split_and!.
  - split.
    + destruct cs as [|c cs]; [done|]. unfold addChildrenToTicket. rewrite Hp.
      cbn [foldl]. intros Hpend. exfalso.
      rewrite addChild_fold_settled in Hpend;
        unfold addChild in *; by destruct (findByPk c st).
    + intros ->. unfold addChildrenToTicket. by rewrite Hp.
  - unfold addChildrenToTicket. by rewrite Hp.
  - unfold addChildrenToTicketReturningArray. by rewrite Hp.
Qed.

Lemma addChildren_of_no_children_witness :
  is_Some (findByPk 1 three_roots) ∧
  addChildrenToTicket 1 [] three_roots = (Pending, three_roots) ∧
  (addChildrenToTicket 1 [99]%N three_roots).1 ≠ Pending.
Proof.
  assert (is_Some (findByPk 1 three_roots)) as Hp by (eexists; by vm_compute).
  destruct (addChildren_of_no_children 1%N [] three_roots Hp) as (_ & Hnil & _).
  destruct (addChildren_of_no_children 1%N [99]%N three_roots Hp) as (Hiff & _ & _).
  split_and!; [exact Hp|exact Hnil|].
  intros Hpend. by apply Hiff in Hpend.
Defined.

(** ** New tickets *)

Lemma nextId_run m st : not_create m → nextId (run m st).2 = nextId st.
Proof.
  destruct m as [s ic|i s|i b|i|p cs|p cs|p c|i]; cbn [run]; intros Hnc; [done|..].
  - by rewrite updateTicket_write, nextId_write.
  - by rewrite toggleTicket_write, nextId_write.
  - rewrite removeTicket_store. by destruct (findByPk i st).
  - rewrite addChildrenToTicket_store. destruct (findByPk p st); [|done].
    apply nextId_reparentAll.
  - rewrite addChildrenToTicketReturningArray_store. destruct (findByPk p st); [|done].
    apply nextId_reparentAll.
  - by rewrite setParentOfTicket_write, nextId_write.
  - by rewrite removeParentFromTicket_write, nextId_write.
Qed.

Lemma ids_below_counter_run m st :
  ids_below_counter st → ids_below_counter (run m st).2.
Proof.
  intros Hwf k Hk.
  assert (not_create m ∨ ∃ s ic, m = CreateTicket s ic) as [Hnc|(s & ic & ->)]
    by (destruct m; cbn; eauto).
  - rewrite nextId_run by done. apply Hwf.
    pose proof (run_findByPk m st k Hnc) as H.
    destruct (findByPk k st) as [t|]; [by eexists|].
    rewrite H in Hk. by destruct Hk.
  - cbn [run] in *. rewrite createTicket_store in *.
    rewrite findByPk_create in Hk. cbn. case_decide as Hkn; [lia|].
    specialize (Hwf k Hk). lia.
Qed.

Lemma ids_below_counter_reachable st : reachable st → ids_below_counter st.
Proof.
  induction 1 as [|m st _ IH].
  - intros k [t Ht]. by vm_compute in Ht.
  - by apply ids_below_counter_run.
Qed.

(** X13: in every reachable store, [createTicket] is fulfilled with a
    root level ticket of the given title under an id that no ticket had;
    afterwards the [ticket] query answers it for that id, the roots
    query [tickets] has it, and every other id has the ticket it had. *)
Theorem createTicket_adds_a_new_root (s : string) (ic : option bool) (st : Store) :
  reachable st →
  let st' := (createTicket s ic st).2 in
  ∃ t, (createTicket s ic st).1 = Fulfilled (VTicket t) ∧
       title t = s ∧ parentId t = None ∧
       findByPk (id t) st = None ∧
       ticket (id t) st' = (Fulfilled (VTicket t), st') ∧
       (∃ ts, (tickets st').1 = Fulfilled (VArray ts) ∧ t ∈ ts) ∧
       ∀ k, k ≠ id t → findByPk k st' = findByPk k st.
Proof.
  intros Hr st'. apply ids_below_counter_reachable in Hr.
  exists (create s ic st).1.
  assert (findByPk (nextId st) st' = Some (create s ic st).1) as Hnew.
  { unfold st'. by rewrite createTicket_store, findByPk_create, decide_True. }
  split_and!; try done.
  - destruct (findByPk (nextId st) st) as [t|] eqn:Ht; [|done].
    specialize (Hr (nextId st)). rewrite Ht in Hr.
    assert (nextId st < nextId st)%N by (apply Hr; by eexists). lia.
  - unfold ticket. cbn [id create fst instance]. by rewrite Hnew.
  - eexists. split; [done|]. by apply elem_of_findAll_parentId.
  - intros k Hk. unfold st'.
    by rewrite createTicket_store, findByPk_create, decide_False.
Qed.

Lemma createTicket_adds_a_new_root_witness :
  reachable one_child ∧
  ∃ t, (createTicket "C" None one_child).1 = Fulfilled (VTicket t) ∧
       findByPk (id t) one_child = None ∧
       ticket (id t) (createTicket "C" None one_child).2
       = (Fulfilled (VTicket t), (createTicket "C" None one_child).2).
Proof.
  split; [apply reachable_one_child|].
  destruct (createTicket_adds_a_new_root "C" None one_child reachable_one_child)
    as (t & Ht & _ & _ & Hnew & Hq & _).
  by exists t.
Defined.

(** ** The answer of the array variant *)

(** X14: for an existing parent, [addChildrenToTicketReturningArray]
    always settles: it is fulfilled with an array exactly when every
    listed id exists, and otherwise it is rejected with an id of the list
    that does not exist. *)
Theorem returningArray_settles (p : ID) (cs : list ID) (st : Store) :
  is_Some (findByPk p st) →
  let pr := (addChildrenToTicketReturningArray p cs st).1 in
  ((∃ ts, pr = Fulfilled (VArray ts)) ↔ Forall (λ c, is_Some (findByPk c st)) cs) ∧
  ((∃ ts, pr = Fulfilled (VArray ts)) ∨
   ∃ c, pr = Rejected (ChildrenTicketDoesNotExist c) ∧ c ∈ cs ∧ findByPk c st = None).
Proof.
  intros Hp pr. unfold pr. rewrite addChildrenToTicketReturningArray_result by done.
  destruct (Promise_all _) as [e|ts] eqn:Hall.
  - apply Promise_all_rejected in Hall as (c & Hin & Hn & ->). split.
    + split; [by intros [ts [=]]|].
      intros Hex. rewrite Forall_forall in Hex. specialize (Hex c Hin).
      rewrite Hn in Hex. by destruct Hex.
    + right. by exists c.
  - split; [|left; by eexists]. split; [|by eexists]. intros _.
    apply Forall_forall. intros c Hin.
    destruct (findByPk c st) as [t|] eqn:Hc; [by eexists|].
    apply list_elem_of_split in Hin as (l1 & l2 & ->).
    assert (∃ l1' c' l2', l1 ++ c :: l2 = l1' ++ c' :: l2' ∧
                          Forall (λ c, is_Some (findByPk c st)) l1' ∧
                          findByPk c' st = None) as (l1' & c' & l2' & Heq & Hl1 & Hc').
    { clear Hall. induction l1 as [|a l1 IH]; cbn.
      - by exists [], c, l2.
      - destruct (findByPk a st) as [ta|] eqn:Ha.
        + destruct IH as (l1' & c' & l2' & Heq & Hl1 & Hc').
          exists (a :: l1'), c', l2'. rewrite Heq. split_and!; [done| |done].
          constructor; [by eexists|done].
        + by exists [], a, (l1 ++ c :: l2). }
    rewrite Heq, Promise_all_missing in Hall by done. done.
Qed.

Lemma returningArray_settles_witness :
  is_Some (findByPk 1 three_roots) ∧
  ∃ c, (addChildrenToTicketReturningArray 1 [2; 99; 3]%N three_roots).1
       = Rejected (ChildrenTicketDoesNotExist c) ∧ findByPk c three_roots = None.
Proof.
  assert (is_Some (findByPk 1 three_roots)) as Hp by (eexists; by vm_compute).
  split; [exact Hp|].
  destruct (returningArray_settles 1%N [2; 99; 3]%N three_roots Hp)
    as [_ [[ts Hts]|(c & Hc & _ & Hn)]].
  - vm_compute in Hts. discriminate Hts.
  - by exists c.
Defined.
